(** * Firmware analysis tools of the ESP32-2432S028 HMI repository

  A shallow embedding of the three scripts under
  [tools/firmware_analysis]:
  - [extract_partition.py]   (partition table decoder, factory app extraction),
  - [find_init_sequences.py] (command sequence heuristic),
  - [analyze_tft_config.py]  (string, driver and opcode scanners),
  together with the properties of them that the specification states.

  Bytes are integers in [0, 256); a [bytes] object is a list of them.
  Python exceptions are values of [exception] carried by [result]. *)

From Stdlib Require Import ZArith Lia Ascii String.
From stdpp Require Import gmap strings list sorting.

Local Open Scope Z_scope.

#[local] Set Warnings "-clear-no-such-hyp".

(** ** Python primitives used by the scripts *)

Module Py.

Definition byte_ok (b : Z) : Prop := 0 ≤ b < 256.

#[global] Instance byte_ok_dec b : Decision (byte_ok b).
Proof. unfold byte_ok. apply _. Defined.

(** A well-formed [bytes] object. *)
Definition is_bytes (data : list Z) : Prop := Forall byte_ok data.

#[global] Instance is_bytes_dec data : Decision (is_bytes data).
Proof. unfold is_bytes. apply _. Defined.

Definition len {A} (l : list A) : Z := Z.of_nat (length l).

(** Index adjustment of a slice bound: negative bounds count from the
    end, and every bound is clamped into [0, len]. *)
Definition adjust_index (i n : Z) : Z :=
  if i <? 0 then Z.max 0 (i + n) else Z.min i n.

(** [l[start:stop]] *)
Definition slice {A} (l : list A) (start stop : Z) : list A :=
  let a := adjust_index start (len l) in
  let b := adjust_index stop (len l) in
  take (Z.to_nat (b - a)) (drop (Z.to_nat a) l).

(** [l[start:]] *)
Definition slice_from {A} (l : list A) (start : Z) : list A :=
  slice l start (len l).

(** [l[:stop]] *)
Definition slice_to {A} (l : list A) (stop : Z) : list A :=
  slice l 0 stop.

(** [any(p(b) for b in l)] *)
Definition any {A} (p : A → bool) (l : list A) : bool := existsb p l.

Inductive exception := StructError | IndexError.

Inductive result (A : Type) :=
| Ok (a : A)
| Raise (e : exception).
Arguments Ok {A} a.
Arguments Raise {A} e.

#[global] Instance result_ret : MRet result := λ A a, Ok a.
#[global] Instance result_bind : MBind result := λ A B k r,
  match r with
  | Ok a => k a
  | Raise e => Raise e
  end.

#[global] Instance result_fmap : FMap result := λ A B f r,
  match r with
  | Ok a => Ok (f a)
  | Raise e => Raise e
  end.

Definition lower_byte (b : Z) : Z :=
  if (0x41 <=? b) && (b <=? 0x5A) then b + 32 else b.

(** [s.lower()] on a bytes object *)
Definition lower (s : list Z) : list Z := lower_byte <$> s.

(** Does [s] begin with [p], bytes compared by [e]? *)
Fixpoint starts_with (e : Z → Z → bool) (p s : list Z) : bool :=
  match p, s with
  | [], _ => true
  | _ :: _, [] => false
  | x :: p', y :: s' => e x y && starts_with e p' s'
  end.

(** [sub in s] on bytes objects *)
Fixpoint contains (sub s : list Z) : bool :=
  starts_with Z.eqb sub s ||
  match s with
  | [] => false
  | _ :: s' => contains sub s'
  end.

(** Left-to-right search for the non-overlapping occurrences of a
    literal [p], as [bytes.count] and [re.finditer] do it: after a match
    the search resumes behind it (one further for an empty match),
    after a failure one position further. *)
Fixpoint scan (e : Z → Z → bool) (fuel : nat) (p : list Z) (pos : nat)
    (rest : list Z) : list nat :=
  match fuel with
  | O => []
  | S fuel' =>
      match rest with
      | [] => if starts_with e p [] then [pos] else []
      | _ :: tl =>
          if starts_with e p rest then
            let w := Nat.max 1 (length p) in
            pos :: scan e fuel' p (pos + w)%nat (drop w rest)
          else scan e fuel' p (S pos) tl
      end
  end.

Definition occurrences (e : Z → Z → bool) (p data : list Z) : list nat :=
  scan e (S (length data)) p 0%nat data.

(** [data.count(sub)] *)
Definition count (data sub : list Z) : nat :=
  length (occurrences Z.eqb sub data).

(** Specification side: [p] occurs in [data] at index [i], bytes being
    compared after [f] (the identity, or [lower_byte] for a
    case-insensitive match). *)
Definition occurs_at (f : Z → Z) (p data : list Z) (i : nat) : Prop :=
  f <$> take (length p) (drop i data) = f <$> p.

#[global] Instance occurs_at_dec f p data i : Decision (occurs_at f p data i).
Proof. unfold occurs_at. apply _. Defined.

(** Specification side: the number of start positions at which [p]
    occurs; overlapping occurrences count one each. *)
Definition occurrence_count (f : Z → Z) (p data : list Z) : nat :=
  length (filter (occurs_at f p data) (seq 0 (length data))).

(** Specification side: some proper suffix of [p] is also a prefix of
    [p], so that two occurrences of [p] can overlap. *)
Definition border_at (f : Z → Z) (p : list Z) (k : nat) : Prop :=
  f <$> drop k p = f <$> take (length p - k) p.

#[global] Instance border_at_dec f p k : Decision (border_at f p k).
Proof. unfold border_at. apply _. Defined.

Definition border_free (f : Z → Z) (p : list Z) : Prop :=
  Forall (λ k, ¬ border_at f p k) (seq 1 (length p - 1)).

#[global] Instance border_free_dec f p : Decision (border_free f p).
Proof. unfold border_free. apply _. Defined.

(** Character of a code point below 256. *)
Definition chr (b : Z) : ascii := ascii_of_N (Z.to_N b).

Definition ord (c : ascii) : Z := Z.of_N (N_of_ascii c).

Fixpoint str_of (l : list Z) : string :=
  match l with
  | [] => EmptyString
  | b :: l' => String (chr b) (str_of l')
  end.

(** [s.encode("ascii")] for a string of ASCII characters *)
Definition encode_ascii (s : string) : list Z :=
  ord <$> String.list_ascii_of_string s.

(** [b.decode("ascii")]: fails on a byte above 127. *)
Definition decode_ascii (b : list Z) : option string :=
  if forallb (λ x, x <? 128) b then Some (str_of b) else None.

(** [b.decode("ascii", "ignore")]: bytes above 127 are dropped. *)
Definition decode_ascii_ignore (b : list Z) : string :=
  str_of (filter (λ x, x < 128) b).

End Py.

(** ** find_init_sequences.py *)

Module Sequences.
Import Py.

(** One element of [matches]: the dict with keys offset, before, after. *)
Record site := Site { offset : Z; before : list Z; after : list Z }.

(** [data[start:i]] with [start = max(0, i - 10)] *)
Definition context_before (data : list Z) (i : Z) : list Z :=
  let start := Z.max 0 (i - 10) in
  slice data start i.

(** [data[i + 1 : end]] with [end = min(len(data), i + 20)] *)
Definition context_after (data : list Z) (i : Z) : list Z :=
  let end_ := Z.min (len data) (i + 20) in
  slice data (i + 1) end_.

(** [b in nearby_cmds or b < 10] *)
Definition param_like (nearby_cmds : gset Z) (b : Z) : bool :=
  bool_decide (b ∈ nearby_cmds) || (b <? 10).

(** The bytes the heuristic looks at: [context_after[:5]]. *)
Definition tested (data : list Z) (i : Z) : list Z :=
  slice_to (context_after data i) 5.

(** Body of the loop at index [i]: what, if anything, is appended. *)
Definition visit (data : list Z) (cmd_byte : Z) (nearby_cmds : gset Z)
    (i : nat) : option site :=
  match data !! i with
  | Some b =>
      if bool_decide (b = cmd_byte) then
        if any (param_like nearby_cmds) (tested data (Z.of_nat i)) then
          Some {| offset := Z.of_nat i;
                  before := slice_from (context_before data (Z.of_nat i)) (-10);
                  after := slice_to (context_after data (Z.of_nat i)) 15 |}
        else None
      else None
  | None => None
  end.

(** [for i in range(len(data))], appending in scan order. *)
Definition find_command_sequences (data : list Z) (cmd_byte : Z)
    (name : string) (nearby_cmds : gset Z) : list site :=
  omap (visit data cmd_byte nearby_cmds) (seq 0 (length data)).

(** Specification side: the site of an occurrence at index [i], with
    the (at most 10) bytes before it and the first (at most 15) bytes
    after it. *)
Definition site_at (data : list Z) (i : nat) : site :=
  {| offset := Z.of_nat i;
     before := take (i - (i - 10)) (drop (i - 10) data);
     after := take 15 (drop (S i) data) |}.

(** Specification side: an occurrence of [cmd_byte] at [i] one of whose
    (at most 5) following bytes is a known command or below 10. *)
Definition qualifies (data : list Z) (cmd_byte : Z) (nearby : gset Z)
    (i : nat) : Prop :=
  data !! i = Some cmd_byte ∧
  ∃ b, b ∈ take 5 (drop (S i) data) ∧ (b ∈ nearby ∨ b < 10).

(** The set built in [main]. *)
Definition nearby_cmds : gset Z :=
  list_to_set [0x11; 0x29; 0x36; 0x3A; 0xB1; 0xB6; 0xC0; 0xC1; 0xC5; 0xE0; 0xE1].

End Sequences.

(** ** extract_partition.py *)

Module Partition.
Import Py.

(** One element of [entries]. *)
Record entry := Entry {
  label : string;
  type : string;
  subtype : string;
  offset : Z;
  size : Z;
  flags : Z
}.

#[global] Instance entry_eq_dec : EqDecision entry.
Proof. solve_decision. Defined.

(** Little-endian value of a byte string. *)
Definition le_value (b : list Z) : Z := foldr (λ x acc, x + 256 * acc) 0 b.

(** [struct.unpack("<H", b)[0]] for [width = 2], ["<I"] for [width = 4]:
    a buffer of another size raises [struct.error]. *)
Definition unpack (width : nat) (b : list Z) : result Z :=
  if bool_decide (length b = width) then Ok (le_value b) else Raise StructError.

(** [b[i]] *)
Definition index (b : list Z) (i : nat) : result Z :=
  match b !! i with
  | Some x => Ok x
  | None => Raise IndexError
  end.

(** [b.split(sep, 1)[0]] for a one-byte separator *)
Fixpoint split_first (sep : Z) (b : list Z) : list Z :=
  match b with
  | [] => []
  | x :: b' => if bool_decide (x = sep) then [] else x :: split_first sep b'
  end.

Definition hex_digit (d : Z) : ascii :=
  default "0"%char (String.get (Z.to_nat d) "0123456789ABCDEF").

(** [f"0x{n:02X}"] for a byte [n] *)
Definition format_0x02X (n : Z) : string :=
  String "0" (String "x" (String (hex_digit (n / 16))
    (String (hex_digit (n mod 16)) EmptyString))).

Definition type_names : gmap Z string :=
  {[ 0x00 := "app"; 0x01 := "data" ]}%string.

Definition subtype_names : gmap Z (gmap Z string) :=
  {[ 0x00 := {[ 0x00 := "factory"; 0x10 := "ota_0"; 0x11 := "ota_1";
                0x20 := "test" ]};
     0x01 := {[ 0x00 := "ota"; 0x01 := "phy"; 0x02 := "nvs";
                0x80 := "esphttpd"; 0x81 := "fat"; 0x82 := "spiffs" ]} ]}%string.

(** What one pass of the loop body does. *)
Inductive control :=
| Break
| Continue
| Append (e : entry).

Definition MAGIC : Z := 0x50AA.

(** The loop body on [entry_data = data[i : i + 32]]. *)
Definition parse_slot (entry_data : list Z) : result control :=
  if bool_decide (slice_to entry_data 2 = [0xFF; 0xFF]) then mret Break else
  magic ← unpack 2 (slice entry_data 0 2);
  if bool_decide (magic ≠ MAGIC) then mret Continue else
  typ ← index entry_data 2;
  subtype ← index entry_data 3;
  offset ← unpack 4 (slice entry_data 4 8);
  size ← unpack 4 (slice entry_data 8 12);
  let label := decode_ascii_ignore (split_first 0 (slice entry_data 12 28)) in
  flags ← unpack 4 (slice entry_data 28 32);
  let type_str := default (format_0x02X typ) (type_names !! typ) in
  let subtype_str :=
    default (format_0x02X subtype)
            (default ∅ (subtype_names !! typ) !! subtype) in
  mret (Append {| label := label; type := type_str; subtype := subtype_str;
                  offset := offset; size := size; flags := flags |}).

(** [range(0, n, 32)] *)
Definition range32 (n : nat) : list nat :=
  (λ k, 32 * k)%nat <$> seq 0 ((n + 31) / 32).

Fixpoint decode_loop (data : list Z) (idxs : list nat) (entries : list entry)
    : result (list entry) :=
  match idxs with
  | [] => Ok entries
  | i :: idxs' =>
      c ← parse_slot (slice data (Z.of_nat i) (Z.of_nat i + 32));
      match c with
      | Break => Ok entries
      | Continue => decode_loop data idxs' entries
      | Append e => decode_loop data idxs' (entries ++ [e])
      end
  end.

Definition decode_partition_table (data : list Z) : result (list entry) :=
  decode_loop data (range32 (length data)) [].

(** Specification side: the [j]-th 32-byte slot of the table (the last
    one may be shorter). *)
Definition stride (data : list Z) (j : nat) : list Z :=
  take 32 (drop (32 * j) data).

(** Specification side: the first two bytes are both [0xFF]. *)
Definition is_sentinel (slot : list Z) : Prop := take 2 slot = [0xFF; 0xFF].

#[global] Instance is_sentinel_dec slot : Decision (is_sentinel slot).
Proof. unfold is_sentinel. apply _. Defined.

(** Specification side: the first two bytes read as a little-endian u16. *)
Definition magic_of (slot : list Z) : option Z :=
  match slot with
  | b0 :: b1 :: _ => Some (b0 + 256 * b1)
  | _ => None
  end.

(** Specification side: the records of the slots [0 .. k-1]. *)
Definition records (data : list Z) (k : nat) : list entry :=
  omap (λ j, match parse_slot (stride data j) with
             | Ok (Append e) => Some e
             | _ => None
             end) (seq 0 k).

(** Specification side: how many of the slots [0 .. k-1] carry the magic. *)
Definition valid_slots (data : list Z) (k : nat) : nat :=
  length (filter (λ j, magic_of (stride data j) = Some MAGIC) (seq 0 k)).

(** What [main] does with an existing backup file of content [raw]. *)
Inductive outcome :=
| NoPartitions
| NoFactory
| Extracted (app_data : list Z).

(** [next((e for e in entries if e["subtype"] == "factory"), None)] *)
Definition factory_app (entries : list entry) : option entry :=
  head (filter (λ e, subtype e = "factory"%string) entries).

(** The bytes written to [factory_app0.bin]. *)
Definition extract (raw : list Z) (e : entry) : list Z :=
  slice raw (offset e) (offset e + size e).

Definition main (raw : list Z) : result outcome :=
  let part_data := slice raw 0x8000 (0x8000 + 0xC00) in
  entries ← decode_partition_table part_data;
  match entries with
  | [] => mret NoPartitions
  | _ =>
      match factory_app entries with
      | Some e => mret (Extracted (extract raw e))
      | None => mret NoFactory
      end
  end.

(** Sample backup images: 0x8000 bytes, then a table with one factory
    record and the sentinel. In [image_whole] the record covers the 4
    bytes at 0x8020; in [image_short] it asks for 0x100000 bytes at
    0x8000 although the image ends at 0x8022. *)
Definition factory_label : list Z :=
  [102; 97; 99; 116; 111; 114; 121] ++ replicate 9 0.

Definition image_whole : list Z :=
  replicate (Z.to_nat 0x8000) 0
  ++ [0xAA; 0x50; 0; 0; 0x20; 0x80; 0; 0; 4; 0; 0; 0] ++ factory_label
  ++ [0; 0; 0; 0] ++ [0xFF; 0xFF; 1; 2].

Definition record_whole : entry :=
  {| label := "factory"; type := "app"; subtype := "factory";
     offset := 0x8020; size := 4; flags := 0 |}.

Definition image_short : list Z :=
  replicate (Z.to_nat 0x8000) 0
  ++ [0xAA; 0x50; 0; 0; 0; 0x80; 0; 0; 0; 0; 0x10; 0] ++ factory_label
  ++ [0; 0; 0; 0] ++ [0xFF; 0xFF].

Definition record_short : entry :=
  {| label := "factory"; type := "app"; subtype := "factory";
     offset := 0x8000; size := 0x100000; flags := 0 |}.

End Partition.

(** ** analyze_tft_config.py *)

Module Analyze.
Import Py.

Definition printable (b : Z) : bool := (0x20 <=? b) && (b <=? 0x7E).

(** Longest prefix of printable bytes: what the greedy
    [[\x20-\x7e]{4,}] consumes when it is tried at the head of [data]. *)
Fixpoint run (data : list Z) : list Z :=
  match data with
  | [] => []
  | b :: data' => if printable b then b :: run data' else []
  end.

(** [re.findall(b"[\x20-\x7e]{4,}", data)]: at each position the
    pattern is tried; a match of at least 4 bytes is recorded and the
    search resumes behind it, otherwise it resumes one byte further. *)
Fixpoint findall_from (fuel : nat) (data : list Z) : list (list Z) :=
  match fuel with
  | O => []
  | S fuel' =>
      match data with
      | [] => []
      | _ :: tl =>
          let r := run data in
          if (4 <=? length r)%nat then r :: findall_from fuel' (drop (length r) data)
          else findall_from fuel' tl
      end
  end.

Definition findall (data : list Z) : list (list Z) :=
  findall_from (length data) data.

(** Specification side: [r] is a run of printable bytes of [data] that
    cannot be extended to the left or to the right. *)
Definition maximal_run (data r : list Z) : Prop :=
  ∃ pre post,
    data = pre ++ r ++ post ∧
    Forall (λ b, printable b = true) r ∧
    (∀ x, last pre = Some x → printable x = false) ∧
    (∀ x, head post = Some x → printable x = false).

(** Proof device: a maximal run that starts behind a non-printable
    byte, not at the head of the buffer. *)
Definition inner_run (data r : list Z) : Prop :=
  ∃ pre post,
    pre ≠ [] ∧ data = pre ++ r ++ post ∧
    Forall (λ b, printable b = true) r ∧
    (∀ x, last pre = Some x → printable x = false) ∧
    (∀ x, head post = Some x → printable x = false).

(** Specification side: [kw] is a substring of [s] when letter case is
    ignored. *)
Definition ci_substring (kw s : list Z) : Prop :=
  ∃ l1 l2, lower s = l1 ++ lower kw ++ l2.

(** Proof device: [data] cut at every non-printable byte. *)
Fixpoint split_runs (data : list Z) : list (list Z) :=
  match data with
  | [] => [[]]
  | b :: data' =>
      if printable b then
        match split_runs data' with
        | r :: rs => (b :: r) :: rs
        | [] => [[b]]
        end
      else [] :: split_runs data'
  end.

Definition str_le (a b : string) : Prop := String.leb a b = true.

#[global] Instance str_le_dec a b : Decision (str_le a b).
Proof. unfold str_le. apply _. Defined.

(** [sorted(set(l))] *)
Definition sorted_set (l : list string) : list string :=
  merge_sort str_le (elements (list_to_set l : gset string)).

(** [any(kw.lower() in s.lower() for kw in keywords)] *)
Definition relevant_run (keywords : list (list Z)) (s : list Z) : bool :=
  any (λ kw, contains (lower kw) (lower s)) keywords.

Definition search_strings (data : list Z) (keywords : list (list Z))
    : list string :=
  let strings := findall data in
  let relevant :=
    omap (λ s, if relevant_run keywords s then decode_ascii s else None)
         strings in
  sorted_set relevant.

Definition drivers : list string :=
  ["ILI9341"; "ILI9488"; "ST7789"; "ST7735"; "ILI9163"; "GC9A01"; "ST7796";
   "HX8357D"]%string.

(** Byte comparison under [re.IGNORECASE]. *)
Definition ci_eqb (a b : Z) : bool := lower_byte a =? lower_byte b.

(** [[m.start() for m in re.finditer(pattern, data, re.IGNORECASE)]]
    for a pattern of letters and digits. *)
Definition finditer_ignorecase (pattern data : list Z) : list nat :=
  occurrences ci_eqb pattern data.

Definition search_drivers_in (drivers : list string) (data : list Z)
    : gmap string nat :=
  foldl (λ found driver,
           let pattern := encode_ascii driver in
           let matches := finditer_ignorecase pattern data in
           match matches with
           | [] => found
           | _ => <[driver := length matches]> found
           end) ∅ drivers.

Definition search_drivers (data : list Z) : gmap string nat :=
  search_drivers_in drivers data.

(** The dict [ili_commands], in insertion order. *)
Definition ili_commands : list (Z * string) :=
  [(0x11, "Sleep Out"); (0x29, "Display On"); (0x36, "Memory Access Control");
   (0x3A, "Pixel Format Set"); (0xB1, "Frame Rate Control");
   (0xB6, "Display Function Control"); (0xC0, "Power Control 1");
   (0xC1, "Power Control 2"); (0xC5, "VCOM Control"); (0xE0, "Positive Gamma");
   (0xE1, "Negative Gamma")]%string.

Definition search_init_commands_in (table : list (Z * string)) (data : list Z)
    : list (Z * string * nat) :=
  omap (λ '(cmd, name),
          let n := count data [cmd] in
          if (0 <? n)%nat then Some (cmd, name, n) else None) table.

Definition search_init_commands (data : list Z) : list (Z * string * nat) :=
  search_init_commands_in ili_commands data.

(** Specification side: the number of positions of [data] that hold the
    byte [c]. *)
Definition positions_holding (c : Z) (data : list Z) : nat :=
  length (filter (λ i, data !! i = Some c) (seq 0 (length data))).

(** Specification side: the number of start positions at which
    [signature] occurs in [data] when letter case is ignored. *)
Definition ci_occurrences (signature : string) (data : list Z) : nat :=
  occurrence_count lower_byte (encode_ascii signature) data.

End Analyze.

(** ** The record layout, and what the [main] functions display *)

Module Layout.
Import Py Partition.

(** Specification side: [struct.pack] of an unsigned little-endian
    integer of [width] bytes, the inverse of [unpack]. *)
Fixpoint pack_le (width : nat) (v : Z) : list Z :=
  match width with
  | O => []
  | S w => v mod 256 :: pack_le w (v / 256)
  end.

(** Specification side: a label padded with NUL bytes to 16 bytes. *)
Definition pad_label (label : list Z) : list Z :=
  label ++ replicate (16 - length label) 0.

(** Specification side: the 32 bytes of a record, laid out as the
    decoder reads them: magic, type, subtype, offset, size, label, flags. *)
Definition record_bytes (typ subtype offset size : Z) (label : list Z)
    (flags : Z) : list Z :=
  pack_le 2 MAGIC ++ [typ; subtype] ++ pack_le 4 offset ++ pack_le 4 size
  ++ pad_label label ++ pack_le 4 flags.

(** The names the decoder gives to a type byte and to a subtype byte. *)
Definition type_str (typ : Z) : string :=
  default (format_0x02X typ) (type_names !! typ).

Definition subtype_str (typ subtype : Z) : string :=
  default (format_0x02X subtype) (default ∅ (subtype_names !! typ) !! subtype).

End Layout.

Module Report.
Import Py Sequences.

(** The dict [key_commands] of [find_init_sequences.main], in insertion
    order. *)
Definition key_commands : list (Z * string) :=
  [(0x11, "Sleep Out (usually first command)");
   (0x3A, "Pixel Format Set (0x55=RGB565, 0x66=RGB666)");
   (0x36, "Memory Access Control (rotation/mirror)");
   (0x29, "Display On (usually last command)")]%string.

(** What [find_init_sequences.main] prints for one command: the header,
    the sites of [matches[:5]], and the count of the line
    ["... and N more occurrences"] when there are more than 5 matches. *)
Record block := Block {
  cmd_byte : Z;
  description : string;
  shown : list site;
  more : option nat
}.

(** The body of the loop over [key_commands]: nothing is printed for a
    command without matches. *)
Definition block_of (data : list Z) (entry : Z * string) : option block :=
  let '(cmd, desc) := entry in
  let matches := find_command_sequences data cmd desc nearby_cmds in
  match matches with
  | [] => None
  | _ =>
      Some {| cmd_byte := cmd; description := desc;
              shown := slice_to matches 5;
              more := if (5 <? length matches)%nat
                      then Some (length matches - 5)%nat else None |}
  end.

Definition main_blocks (data : list Z) : list block :=
  omap (block_of data) key_commands.

End Report.

(** ** Slices *)

Section slice_facts.
Import Py.
Context {A : Type}.
Implicit Types l : list A.

Lemma slice_nat l (a b : nat) :
  slice l (Z.of_nat a) (Z.of_nat b) = take (b - a) (drop a l).
Proof.
  unfold slice, adjust_index, len.
  destruct (Z.ltb_spec (Z.of_nat a) 0); [lia|].
  destruct (Z.ltb_spec (Z.of_nat b) 0); [lia|].
  destruct (decide (a ≤ length l)%nat) as [Ha|Ha].
  - rewrite (Z.min_l (Z.of_nat a)) by lia. rewrite Nat2Z.id.
    destruct (decide (b ≤ length l)%nat) as [Hb|Hb].
    + rewrite Z.min_l by lia. f_equal. lia.
    + rewrite Z.min_r by lia.
      rewrite !take_ge; [done| |]; rewrite length_drop; lia.
  - rewrite (Z.min_r (Z.of_nat a)) by lia. rewrite Nat2Z.id.
    rewrite (drop_ge l a) by lia. rewrite drop_all. by rewrite !take_nil.
Qed.

Lemma slice_pos l (a b : Z) :
  0 ≤ a → 0 ≤ b →
  slice l a b = take (Z.to_nat b - Z.to_nat a) (drop (Z.to_nat a) l).
Proof.
  intros Ha Hb. rewrite <-(Z2Nat.id a) at 1 by done.
  rewrite <-(Z2Nat.id b) at 1 by done. apply slice_nat.
Qed.

Lemma slice_to_nat l (n : nat) : slice_to l (Z.of_nat n) = take n l.
Proof.
  unfold slice_to. change 0 with (Z.of_nat 0). rewrite slice_nat.
  by rewrite Nat.sub_0_r.
Qed.

Lemma slice_from_neg l (n : nat) :
  slice_from l (- Z.of_nat (S n)) = drop (length l - S n) l.
Proof.
  unfold slice_from, slice, adjust_index, len.
  destruct (Z.ltb_spec (- Z.of_nat (S n)) 0); [|lia].
  destruct (Z.ltb_spec (Z.of_nat (length l)) 0); [lia|].
  rewrite Z.min_id.
  replace (Z.to_nat (Z.max 0 (- Z.of_nat (S n) + Z.of_nat (length l))))
    with (length l - S n)%nat by lia.
  apply take_ge. rewrite length_drop. lia.
Qed.

End slice_facts.

(** ** The command-sequence heuristic *)

Section sequences.
Import Py Sequences.
Implicit Types (data : list Z) (nearby : gset Z) (i : nat).

Lemma context_after_nat data i :
  context_after data (Z.of_nat i) = take 19 (drop (S i) data).
Proof.
  unfold context_after, len.
  replace (Z.of_nat i + 1) with (Z.of_nat (S i)) by lia.
  replace (Z.min (Z.of_nat (length data)) (Z.of_nat i + 20))
    with (Z.of_nat (Nat.min (length data) (i + 20))) by lia.
  rewrite slice_nat.
  destruct (decide (i + 20 ≤ length data)%nat).
  - f_equal. lia.
  - rewrite !take_ge; [done| |]; rewrite length_drop; lia.
Qed.

Lemma context_before_nat data i :
  context_before data (Z.of_nat i) = take (i - (i - 10)) (drop (i - 10) data).
Proof.
  unfold context_before.
  replace (Z.max 0 (Z.of_nat i - 10)) with (Z.of_nat (i - 10)) by lia.
  apply slice_nat.
Qed.

Lemma tested_nat data i : tested data (Z.of_nat i) = take 5 (drop (S i) data).
Proof.
  unfold tested. rewrite context_after_nat.
  change 5 with (Z.of_nat 5). rewrite slice_to_nat, take_take. done.
Qed.

Lemma before_field data i :
  slice_from (context_before data (Z.of_nat i)) (-10)
  = take (i - (i - 10)) (drop (i - 10) data).
Proof.
  change (-10) with (- Z.of_nat 10). rewrite slice_from_neg.
  rewrite context_before_nat.
  replace (_ - 10)%nat with 0%nat; [done|].
  rewrite length_take. lia.
Qed.

Lemma after_field data i :
  slice_to (context_after data (Z.of_nat i)) 15 = take 15 (drop (S i) data).
Proof.
  rewrite context_after_nat.
  change 15 with (Z.of_nat 15). rewrite slice_to_nat, take_take. done.
Qed.

Lemma param_like_spec nearby b :
  param_like nearby b = true ↔ b ∈ nearby ∨ b < 10.
Proof.
  unfold param_like. rewrite orb_true_iff, bool_decide_eq_true, Z.ltb_lt. done.
Qed.

Lemma any_spec {A} (p : A → bool) (l : list A) :
  any p l = true ↔ ∃ x, x ∈ l ∧ p x = true.
Proof.
  unfold any. rewrite existsb_exists.
  split; intros (x & ? & ?); exists x; by rewrite ?list_elem_of_In in *.
Qed.

Lemma visit_Some data cmd_byte nearby i s :
  visit data cmd_byte nearby i = Some s ↔
  qualifies data cmd_byte nearby i ∧ s = site_at data i.
Proof.
  unfold visit, qualifies, site_at.
  rewrite before_field, after_field, tested_nat.
  destruct (data !! i) as [b|] eqn:Hb; [|naive_solver].
  case_bool_decide as Hc; [subst b|naive_solver].
  destruct (any _ _) eqn:Hany.
  - apply any_spec in Hany as (x & Hx & Hp). apply param_like_spec in Hp.
    naive_solver.
  - split; [done|]. intros [[_ (x & Hx & Hp)] _].
    assert (any (param_like nearby) (take 5 (drop (S i) data)) = true) as Ht.
    { apply any_spec. exists x. by rewrite param_like_spec. }
    congruence.
Qed.

Lemma elem_of_find_command_sequences data cmd_byte name nearby s :
  s ∈ find_command_sequences data cmd_byte name nearby ↔
  ∃ i, qualifies data cmd_byte nearby i ∧ s = site_at data i.
Proof.
  unfold find_command_sequences. rewrite list_elem_of_omap. split.
  - intros (i & _ & Hv). exists i. by apply visit_Some.
  - intros (i & Hq & ->). exists i. split; [|by apply visit_Some].
    apply elem_of_seq. destruct Hq as [Hi _].
    apply lookup_lt_Some in Hi. lia.
Qed.

Lemma offsets_sorted data cmd_byte nearby (a n : nat) :
  StronglySorted Z.lt (offset <$> omap (visit data cmd_byte nearby) (seq a n)) ∧
  Forall (λ o, Z.of_nat a ≤ o) (offset <$> omap (visit data cmd_byte nearby) (seq a n)).
Proof.
  revert a. induction n as [|n IH]; intros a; simpl.
  { split; constructor. }
  destruct (IH (S a)) as [Hs Hf].
  assert (Forall (λ o, Z.of_nat a < o)
            (offset <$> omap (visit data cmd_byte nearby) (seq (S a) n))) as Hlt.
  { eapply Forall_impl; [exact Hf|]. simpl. lia. }
  destruct (visit data cmd_byte nearby a) as [s|] eqn:Hv; simpl.
  - apply visit_Some in Hv as [_ ->]. simpl. split.
    + by constructor.
    + constructor; [lia|]. eapply Forall_impl; [exact Hlt|]. simpl. lia.
  - split; [done|]. eapply Forall_impl; [exact Hlt|]. simpl. lia.
Qed.

Lemma candidate_at data cmd_byte name nearby i :
  (∃ s, s ∈ find_command_sequences data cmd_byte name nearby ∧
        offset s = Z.of_nat i) ↔
  qualifies data cmd_byte nearby i.
Proof.
  split.
  - intros (s & Hs & Ho).
    apply elem_of_find_command_sequences in Hs as (j & Hq & ->).
    simpl in Ho. by replace i with j by lia.
  - intros Hq. exists (site_at data i). split; [|done].
    apply elem_of_find_command_sequences. eauto.
Qed.

Lemma following_nonempty data i b :
  b ∈ take 5 (drop (S i) data) → (S i < length data)%nat.
Proof.
  intros Hb. apply list_elem_of_lookup in Hb as [k Hk].
  apply lookup_lt_Some in Hk. rewrite length_take, length_drop in Hk. lia.
Qed.

(** C3, as the code has it: the result consists of exactly the sites of
    the qualifying occurrences; a site carries its offset, the
    [min 10 i] bytes before the occurrence and the first
    [min 15 (len - 1 - i)] bytes after it (the captured window of up to
    19 following bytes cut to 15); offsets are strictly ascending. *)
Theorem find_command_sequences_sites data cmd_byte name nearby :
  (∀ s, s ∈ find_command_sequences data cmd_byte name nearby ↔
        ∃ i, qualifies data cmd_byte nearby i ∧ s = site_at data i) ∧
  (∀ i, (i < length data)%nat →
        length (before (site_at data i)) = Nat.min 10 i ∧
        length (context_after data (Z.of_nat i)) = Nat.min 19 (length data - S i) ∧
        length (after (site_at data i)) = Nat.min 15 (length data - S i) ∧
        after (site_at data i) = take 15 (context_after data (Z.of_nat i))) ∧
  StronglySorted Z.lt (offset <$> find_command_sequences data cmd_byte name nearby).
Proof.
  split; [|split].
  - intros s. apply elem_of_find_command_sequences.
  - intros i Hi. rewrite context_after_nat. unfold site_at. cbn [before after].
    rewrite take_take, !length_take, !length_drop.
    repeat split; lia.
  - apply offsets_sorted.
Qed.

(** C3, refuted as stated: with 25 bytes after the occurrence, the
    returned [after] window holds 15 bytes; it is neither the captured
    window (19 bytes) nor the 20 bytes that follow. *)
Lemma find_command_sequences_after_cut :
  let data := 0x11 :: replicate 25 0 in
  ∃ s, find_command_sequences data 0x11 "Sleep Out" nearby_cmds = [s] ∧
       offset s = 0 ∧
       after s = replicate 15 0 ∧
       context_after data 0 = replicate 19 0 ∧
       after s ≠ context_after data 0 ∧
       after s ≠ take 20 (drop 1 data).
Proof.
  eexists. split; [vm_compute; reflexivity|]. simpl.
  repeat split; try reflexivity; vm_compute; discriminate.
Qed.

(** C4: an occurrence of the target opcode at index [i] is among the
    returned sites exactly when one of the first 5 bytes after it is in
    the opcode set or below 10; a following 5 makes it a candidate, and
    following bytes all at least 10 and outside the set exclude it. *)
Theorem candidate_iff data cmd_byte name nearby i :
  ((∃ s, s ∈ find_command_sequences data cmd_byte name nearby ∧
         offset s = Z.of_nat i) ↔
   (data !! i = Some cmd_byte ∧
    ∃ b, b ∈ take 5 (drop (S i) data) ∧ (b ∈ nearby ∨ b < 10))) ∧
  (data !! i = Some cmd_byte → 5 ∈ take 5 (drop (S i) data) →
   ∃ s, s ∈ find_command_sequences data cmd_byte name nearby ∧
        offset s = Z.of_nat i) ∧
  (data !! i = Some cmd_byte →
   (∀ b, b ∈ take 5 (drop (S i) data) → 10 ≤ b ∧ b ∉ nearby) →
   ¬ ∃ s, s ∈ find_command_sequences data cmd_byte name nearby ∧
          offset s = Z.of_nat i).
Proof.
  split; [apply candidate_at|]. split.
  - intros Hi H5. apply candidate_at. split; [done|].
    exists 5. split; [done|]. right. lia.
  - intros Hi Hall Hs. apply candidate_at in Hs as [_ (b & Hb & Hor)].
    destruct (Hall b Hb) as [Hge Hnot]. destruct Hor; [done|lia].
Qed.

Lemma candidate_iff_witness :
  (∃ s, s ∈ find_command_sequences [0x11; 0x20; 5; 0x11; 0x20; 0x21] 0x11
                                   "Sleep Out" nearby_cmds ∧
        offset s = Z.of_nat 0) ∧
  ¬ (∃ s, s ∈ find_command_sequences [0x11; 0x20; 5; 0x11; 0x20; 0x21] 0x11
                                     "Sleep Out" nearby_cmds ∧
          offset s = Z.of_nat 3).
Proof.
  split.
  - apply (candidate_iff [0x11; 0x20; 5; 0x11; 0x20; 0x21] 0x11
                         "Sleep Out" nearby_cmds 0); [reflexivity|].
    simpl. set_solver.
  - apply (candidate_iff [0x11; 0x20; 5; 0x11; 0x20; 0x21] 0x11
                         "Sleep Out" nearby_cmds 3); [reflexivity|].
    simpl. intros b Hb.
    assert (b = 0x20 ∨ b = 0x21) as [-> | ->] by set_solver;
      (split; [lia|vm_compute; discriminate]).
Defined.

(** C10: the heuristic tests exactly the following bytes that exist, at
    most 5 of them, each read at an index inside the buffer; an
    occurrence at the last index is never returned. *)
Theorem tested_in_bounds data i :
  tested data (Z.of_nat i) = take 5 (drop (S i) data) ∧
  length (tested data (Z.of_nat i)) = Nat.min 5 (length data - S i) ∧
  (∀ k b, tested data (Z.of_nat i) !! k = Some b →
          (k < 5)%nat ∧ (S i + k < length data)%nat ∧
          data !! (S i + k)%nat = Some b) ∧
  (∀ cmd_byte name nearby s,
     s ∈ find_command_sequences data cmd_byte name nearby →
     offset s < len data - 1).
Proof.
  rewrite tested_nat. split; [done|]. split; [|split].
  - rewrite length_take, length_drop. done.
  - intros k b Hk. apply lookup_take_Some in Hk as [Hk Hlt].
    rewrite lookup_drop in Hk. split; [done|]. split; [|done].
    by apply lookup_lt_Some in Hk.
  - intros cmd_byte name nearby s Hs.
    apply elem_of_find_command_sequences in Hs as (j & [_ (b & Hb & _)] & ->).
    apply following_nonempty in Hb. simpl. unfold len. lia.
Qed.

Lemma tested_in_bounds_witness :
  tested [0x11; 0x20; 5; 0x11] (Z.of_nat 3) = [] ∧
  ∀ s, s ∈ find_command_sequences [0x11; 0x20; 5; 0x11] 0x11 "Sleep Out"
                                  nearby_cmds → offset s < 3.
Proof.
  split.
  - exact (proj1 (tested_in_bounds [0x11; 0x20; 5; 0x11] 3)).
  - intros s Hs.
    exact (proj2 (proj2 (proj2 (tested_in_bounds [0x11; 0x20; 5; 0x11] 0)))
             0x11 "Sleep Out"%string nearby_cmds s Hs).
Defined.

End sequences.

(** ** The partition table decoder *)

Section decoder.
Import Py Partition.
Implicit Types (data slot : list Z) (e : entry).

Lemma le_value_2 b0 b1 : le_value [b0; b1] = b0 + 256 * b1.
Proof. unfold le_value. simpl. lia. Qed.

Lemma unpack_2 b0 b1 : unpack 2 [b0; b1] = Ok (b0 + 256 * b1).
Proof. unfold unpack. simpl. f_equal. lia. Qed.

Lemma index_Some (b : list Z) i x : b !! i = Some x → index b i = Ok x.
Proof. unfold index. by intros ->. Qed.

Lemma bind_Ok {A B} (a : A) (k : A → result B) : (Ok a ≫= k) = k a.
Proof. reflexivity. Qed.

Lemma bind_Raise {A B} (x : exception) (k : A → result B) :
  (Raise x ≫= k) = Raise x.
Proof. reflexivity. Qed.

(** The loop body with its slices written as [take] and [drop]. *)
Lemma parse_slot_eq slot :
  parse_slot slot =
  if bool_decide (is_sentinel slot) then Ok Break else
  magic ← unpack 2 (take 2 slot);
  if bool_decide (magic ≠ MAGIC) then Ok Continue else
  typ ← index slot 2;
  subtype ← index slot 3;
  offset ← unpack 4 (take 4 (drop 4 slot));
  size ← unpack 4 (take 4 (drop 8 slot));
  flags ← unpack 4 (take 4 (drop 28 slot));
  Ok (Append {| label := decode_ascii_ignore
                           (split_first 0 (take 16 (drop 12 slot)));
                type := default (format_0x02X typ) (type_names !! typ);
                subtype := default (format_0x02X subtype)
                             (default ∅ (subtype_names !! typ) !! subtype);
                offset := offset; size := size; flags := flags |}).
Proof.
  unfold parse_slot, slice_to, is_sentinel.
  rewrite !slice_pos by lia. reflexivity.
Qed.

Lemma parse_slot_sentinel slot : is_sentinel slot → parse_slot slot = Ok Break.
Proof. intros Hs. rewrite parse_slot_eq. by rewrite bool_decide_eq_true_2. Qed.

Lemma parse_slot_skip slot m :
  ¬ is_sentinel slot → magic_of slot = Some m → m ≠ MAGIC →
  parse_slot slot = Ok Continue.
Proof.
  intros Hs Hm Hne. rewrite parse_slot_eq.
  rewrite bool_decide_eq_false_2 by done.
  destruct slot as [|b0 [|b1 slot]]; [done..|].
  simpl in Hm. simplify_eq.
  change (take 2 (b0 :: b1 :: slot)) with [b0; b1].
  rewrite unpack_2, bind_Ok. by rewrite bool_decide_eq_true_2.
Qed.

Lemma magic_not_sentinel slot :
  magic_of slot = Some MAGIC → ¬ is_sentinel slot.
Proof.
  destruct slot as [|b0 [|b1 slot]]; [done..|].
  unfold is_sentinel, MAGIC. simpl. intros ? ?. simplify_eq/=.
Qed.

Lemma parse_slot_append slot :
  length slot = 32%nat → magic_of slot = Some MAGIC →
  ∃ e, parse_slot slot = Ok (Append e) ∧
       offset e = le_value (take 4 (drop 4 slot)) ∧
       size e = le_value (take 4 (drop 8 slot)) ∧
       flags e = le_value (take 4 (drop 28 slot)).
Proof.
  intros Hlen Hm. rewrite parse_slot_eq.
  rewrite bool_decide_eq_false_2 by by apply magic_not_sentinel.
  destruct slot as [|b0 [|b1 [|b2 [|b3 slot]]]]; [done..|].
  simpl in Hm. simplify_eq.
  change (take 2 (b0 :: b1 :: b2 :: b3 :: slot)) with [b0; b1].
  rewrite unpack_2, bind_Ok.
  rewrite bool_decide_eq_false_2 by (intros Hc; by apply Hc).
  rewrite (index_Some _ 2 b2), bind_Ok by done.
  rewrite (index_Some _ 3 b3), bind_Ok by done. unfold unpack.
  rewrite !bool_decide_eq_true_2
    by (rewrite length_take, length_drop, Hlen; lia).
  rewrite !bind_Ok. eexists. split; [reflexivity|]. done.
Qed.

Lemma parse_slot_append_inv slot e :
  parse_slot slot = Ok (Append e) →
  magic_of slot = Some MAGIC ∧
  offset e = le_value (take 4 (drop 4 slot)) ∧
  size e = le_value (take 4 (drop 8 slot)) ∧
  length (take 4 (drop 4 slot)) = 4%nat ∧
  length (take 4 (drop 8 slot)) = 4%nat.
Proof.
  rewrite parse_slot_eq. case_bool_decide as Hs; [done|].
  destruct (unpack 2 (take 2 slot)) as [magic|] eqn:Hu;
    [rewrite bind_Ok|by rewrite bind_Raise].
  case_bool_decide as Hm; [done|].
  destruct (index _ 2) as [typ|]; [rewrite bind_Ok|by rewrite bind_Raise].
  destruct (index _ 3) as [sub|]; [rewrite bind_Ok|by rewrite bind_Raise].
  destruct (unpack 4 (take 4 (drop 4 slot))) as [o|] eqn:Ho;
    [rewrite bind_Ok|by rewrite bind_Raise].
  destruct (unpack 4 (take 4 (drop 8 slot))) as [z|] eqn:Hz;
    [rewrite bind_Ok|by rewrite bind_Raise].
  destruct (unpack 4 (take 4 (drop 28 slot))) as [f|] eqn:Hf;
    [rewrite bind_Ok|by rewrite bind_Raise].
  intros [= <-]. simpl.
  unfold unpack in Hu, Ho, Hz.
  repeat case_bool_decide; simplify_eq.
  destruct slot as [|b0 [|b1 slot]]; [done..|].
  change (take 2 (b0 :: b1 :: slot)) with [b0; b1] in Hu.
  rewrite le_value_2 in Hu. repeat split; try done.
  simpl. by f_equal.
Qed.

Lemma slot_slice data (i : nat) :
  slice data (Z.of_nat i) (Z.of_nat i + 32) = take 32 (drop i data).
Proof.
  replace (Z.of_nat i + 32) with (Z.of_nat (i + 32)) by lia.
  rewrite slice_nat. f_equal. lia.
Qed.

Lemma range32_pos n :
  (0 < n)%nat → range32 n = 0%nat :: ((λ i, i + 32)%nat <$> range32 (n - 32)).
Proof.
  intros Hn. unfold range32.
  replace ((n + 31) / 32)%nat with (S ((n - 32 + 31) / 32)).
  - rewrite <-cons_seq, fmap_cons, <-fmap_S_seq, <-!list_fmap_compose.
    f_equal. apply list_fmap_ext. intros _ k _. simpl. lia.
  - destruct (decide (n < 32)%nat).
    + replace (n - 32 + 31)%nat with 31%nat by lia.
      rewrite (Nat.div_small 31 32) by lia.
      apply (Nat.div_unique _ _ _ (n - 1)); lia.
    + pose proof (Nat.div_mod_eq (n - 32 + 31) 32).
      pose proof (Nat.mod_upper_bound (n - 32 + 31) 32).
      apply (Nat.div_unique _ _ _ ((n - 32 + 31) mod 32)); lia.
Qed.

Lemma decode_loop_shift data idxs acc :
  decode_loop data ((λ i, i + 32)%nat <$> idxs) acc
  = decode_loop (drop 32 data) idxs acc.
Proof.
  revert acc. induction idxs as [|i idxs IH]; intros acc; [done|].
  simpl. rewrite !slot_slice, drop_drop.
  replace (32 + i)%nat with (i + 32)%nat by lia.
  destruct (parse_slot _) as [[| |e]|]; simpl; auto.
Qed.

Lemma decode_loop_acc data idxs acc :
  decode_loop data idxs acc = (acc ++.) <$> decode_loop data idxs [].
Proof.
  revert acc. induction idxs as [|i idxs IH]; intros acc; simpl.
  { by rewrite app_nil_r. }
  destruct (parse_slot _) as [[| |e]|]; simpl; auto.
  - by rewrite app_nil_r.
  - rewrite (IH (acc ++ [e])), (IH [e]).
    destruct (decode_loop data idxs []); simpl; [|done].
    by rewrite <-app_assoc.
Qed.

Lemma decode_nil : decode_partition_table [] = Ok [].
Proof. reflexivity. Qed.

(** One pass of the loop, then the decoder on the rest of the table. *)
Lemma decode_unfold data :
  data ≠ [] →
  decode_partition_table data =
  c ← parse_slot (take 32 data);
  match c with
  | Break => Ok []
  | Continue => decode_partition_table (drop 32 data)
  | Append e => (e ::.) <$> decode_partition_table (drop 32 data)
  end.
Proof.
  intros Hne. unfold decode_partition_table.
  rewrite range32_pos by (destruct data; simpl; [done|lia]).
  cbn [decode_loop]. rewrite slot_slice, drop_0.
  destruct (parse_slot _) as [[| |e]|]; rewrite ?bind_Ok, ?bind_Raise; try done.
  - rewrite decode_loop_shift. by rewrite length_drop.
  - rewrite decode_loop_shift, decode_loop_acc. by rewrite length_drop.
Qed.

Lemma chunk_ind (P : list Z → Prop) :
  P [] → (∀ data, data ≠ [] → P (drop 32 data) → P data) → ∀ data, P data.
Proof.
  intros Hnil Hstep data.
  assert (∀ n d, (length d ≤ n)%nat → P d) as Hall; [|by eapply Hall].
  clear data. induction n as [|n IH]; intros d Hd.
  - destruct d; [done|simpl in Hd; lia].
  - destruct d as [|x d]; [done|]. apply Hstep; [done|].
    apply IH. rewrite length_drop. simpl in *. lia.
Qed.

Lemma stride_0 data : stride data 0 = take 32 data.
Proof. unfold stride. by rewrite drop_0. Qed.

Lemma stride_S data j : stride data (S j) = stride (drop 32 data) j.
Proof. unfold stride. rewrite drop_drop. do 2 f_equal. lia. Qed.

Lemma records_S data k :
  records data (S k) =
  match parse_slot (take 32 data) with
  | Ok (Append e) => [e]
  | _ => []
  end ++ records (drop 32 data) k.
Proof.
  unfold records. rewrite <-cons_seq, <-fmap_S_seq. cbn [omap list_omap].
  rewrite stride_0.
  assert (omap (λ j, match parse_slot (stride data j) with
                     | Ok (Append e) => Some e
                     | _ => None
                     end) (S <$> seq 0 k)
          = omap (λ j, match parse_slot (stride (drop 32 data) j) with
                       | Ok (Append e) => Some e
                       | _ => None
                       end) (seq 0 k)) as ->.
  { induction (seq 0 k) as [|j l IH]; [done|].
    rewrite fmap_cons. cbn [omap list_omap]. by rewrite IH, stride_S. }
  by destruct (parse_slot (take 32 data)) as [[| |e]|].
Qed.

Lemma valid_slots_S data k :
  valid_slots data (S k) =
  ((if decide (magic_of (take 32 data) = Some MAGIC) then 1 else 0)
   + valid_slots (drop 32 data) k)%nat.
Proof.
  unfold valid_slots. rewrite <-cons_seq, <-fmap_S_seq.
  rewrite filter_cons, stride_0.
  assert (length (filter (λ j, magic_of (stride data j) = Some MAGIC)
                         (S <$> seq 0 k))
          = length (filter (λ j, magic_of (stride (drop 32 data) j) = Some MAGIC)
                           (seq 0 k))) as Heq.
  { induction (seq 0 k) as [|j l IH]; [done|].
    rewrite fmap_cons, !filter_cons, stride_S.
    destruct (decide _); simpl; by rewrite IH. }
  destruct (decide _); simpl; by rewrite Heq.
Qed.

Lemma sentinel_length data k :
  is_sentinel (stride data k) → (32 * k + 2 ≤ length data)%nat.
Proof.
  unfold is_sentinel, stride. intros Hs.
  apply (f_equal length) in Hs.
  rewrite !length_take, length_drop in Hs. cbn [length] in Hs. lia.
Qed.

Lemma magic_of_full slot :
  (2 ≤ length slot)%nat → ∃ m, magic_of slot = Some m.
Proof. destruct slot as [|b0 [|b1 slot]]; simpl; [lia..|eauto]. Qed.

(** A full slot that is not the sentinel never raises. *)
Lemma parse_slot_full slot :
  length slot = 32%nat → ¬ is_sentinel slot →
  (magic_of slot = Some MAGIC ∧ ∃ e, parse_slot slot = Ok (Append e)) ∨
  (magic_of slot ≠ Some MAGIC ∧ parse_slot slot = Ok Continue).
Proof.
  intros Hlen Hs.
  destruct (magic_of_full slot) as [m Hm]; [lia|].
  destruct (decide (m = MAGIC)) as [->|Hne].
  - left. split; [done|].
    destruct (parse_slot_append slot) as (e & He & _); eauto.
  - right. split; [congruence|]. by eapply parse_slot_skip.
Qed.

(** With the sentinel in slot [k] and none before, the decoder returns
    the records of the slots before [k]. *)
Lemma decode_until_sentinel k data :
  is_sentinel (stride data k) →
  (∀ j, (j < k)%nat → ¬ is_sentinel (stride data j)) →
  decode_partition_table data = Ok (records data k) ∧
  length (records data k) = valid_slots data k.
Proof.
  revert data. induction k as [|k IH]; intros data Hs Hbefore.
  - pose proof (sentinel_length _ _ Hs) as Hlen.
    rewrite stride_0 in Hs.
    rewrite decode_unfold by (destruct data; simpl in *; [lia|done]).
    by rewrite parse_slot_sentinel.
  - pose proof (sentinel_length _ _ Hs) as Hlen.
    rewrite stride_S in Hs.
    destruct (IH (drop 32 data) Hs) as [Hd Hl].
    { intros j Hj. rewrite <-stride_S. apply Hbefore. lia. }
    rewrite decode_unfold by (destruct data; simpl in *; [lia|done]).
    rewrite records_S, valid_slots_S.
    destruct (parse_slot_full (take 32 data)) as [[Hm [e He]]|[Hm Hc]].
    { rewrite length_take. lia. }
    { rewrite <-stride_0. apply Hbefore. lia. }
    + rewrite He, bind_Ok, Hd. rewrite decide_True by done.
      simpl. by rewrite Hl.
    + rewrite Hc, bind_Ok, Hd. rewrite decide_False by done. done.
Qed.

Lemma decode_exhausted n data :
  length data = (32 * n)%nat →
  (∀ j, (j < n)%nat → ¬ is_sentinel (stride data j)) →
  decode_partition_table data = Ok (records data n) ∧
  length (records data n) = valid_slots data n.
Proof.
  revert data. induction n as [|n IH]; intros data Hlen Hno.
  - destruct data; [done|simpl in Hlen; lia].
  - destruct (IH (drop 32 data)) as [Hd Hl].
    { rewrite length_drop. lia. }
    { intros j Hj. rewrite <-stride_S. apply Hno. lia. }
    rewrite decode_unfold by (destruct data; simpl in *; [lia|done]).
    rewrite records_S, valid_slots_S.
    destruct (parse_slot_full (take 32 data)) as [[Hm [e He]]|[Hm Hc]].
    { rewrite length_take. lia. }
    { rewrite <-stride_0. apply Hno. lia. }
    + rewrite He, bind_Ok, Hd. rewrite decide_True by done.
      simpl. by rewrite Hl.
    + rewrite Hc, bind_Ok, Hd. rewrite decide_False by done. done.
Qed.

Lemma valid_slots_le data k : (valid_slots data k ≤ k)%nat.
Proof.
  unfold valid_slots.
  etrans; [apply length_filter|]. by rewrite length_seq.
Qed.

Lemma valid_slots_all k data :
  (∀ j, (j < k)%nat → magic_of (stride data j) = Some MAGIC) →
  valid_slots data k = k.
Proof.
  revert data. induction k as [|k IH]; intros data Hall; [done|].
  rewrite valid_slots_S, <-stride_0.
  rewrite decide_True by (apply Hall; lia).
  rewrite IH; [done|]. intros j Hj. rewrite <-stride_S. apply Hall. lia.
Qed.

Lemma records_ext d1 d2 k :
  (∀ j, (j < k)%nat → stride d1 j = stride d2 j) → records d1 k = records d2 k.
Proof.
  intros Heq. unfold records. apply list_omap_ext, Forall2_same_length_lookup.
  split; [done|]. intros i x y Hx Hy. simplify_eq.
  apply lookup_seq in Hx as [-> Hlt]. by rewrite Heq.
Qed.

Lemma stride_prefix data k junk j :
  (32 * k ≤ length data)%nat → (j < k)%nat →
  stride (take (32 * k) data ++ junk) j = stride data j.
Proof.
  intros Hlen Hj. unfold stride.
  rewrite drop_app_le by (rewrite length_take; lia).
  rewrite take_app_le by (rewrite length_drop, length_take; lia).
  rewrite !take_drop_commute, take_take. do 2 f_equal. lia.
Qed.

Lemma stride_after_prefix data k junk :
  (32 * k ≤ length data)%nat →
  stride (take (32 * k) data ++ junk) k = take 32 junk.
Proof.
  intros Hlen. unfold stride.
  by rewrite drop_app_length' by (rewrite length_take; lia).
Qed.

(** C5, as the code has it: with the sentinel in slot [k] and in no
    earlier slot, the decoder returns the records of the slots before
    [k] that carry the magic: at most [k], and [k] when every earlier
    slot carries it; whatever follows the sentinel is ignored. Without a
    sentinel, a table of [n] whole slots is decoded to its end. *)
Theorem decode_stops_at_sentinel data k :
  (is_sentinel (stride data k) →
   (∀ j, (j < k)%nat → ¬ is_sentinel (stride data j)) →
   decode_partition_table data = Ok (records data k) ∧
   length (records data k) = valid_slots data k ∧
   (valid_slots data k ≤ k)%nat ∧
   ((∀ j, (j < k)%nat → magic_of (stride data j) = Some MAGIC) →
    length (records data k) = k) ∧
   (∀ junk, decode_partition_table (take (32 * k) data ++ 0xFF :: 0xFF :: junk)
            = Ok (records data k))) ∧
  (length data = (32 * k)%nat →
   (∀ j, (j < k)%nat → ¬ is_sentinel (stride data j)) →
   decode_partition_table data = Ok (records data k) ∧
   length (records data k) = valid_slots data k).
Proof.
  split; [|apply decode_exhausted].
  intros Hs Hno. pose proof (sentinel_length _ _ Hs) as Hlen.
  destruct (decode_until_sentinel k data Hs Hno) as [Hd Hl].
  split; [done|]. split; [done|]. split; [apply valid_slots_le|]. split.
  - intros Hall. rewrite Hl. by apply valid_slots_all.
  - intros junk.
    destruct (decode_until_sentinel k
                (take (32 * k) data ++ 0xFF :: 0xFF :: junk)) as [Hd' _].
    + rewrite stride_after_prefix by lia. done.
    + intros j Hj. rewrite stride_prefix by lia. by apply Hno.
    + rewrite Hd'. f_equal. apply records_ext.
      intros j Hj. apply stride_prefix; lia.
Qed.

Lemma decode_stops_at_sentinel_witness :
  decode_partition_table
    ([0xAA; 0x50] ++ replicate 30 0 ++ [0xFF; 0xFF; 7]) =
  Ok (records ([0xAA; 0x50] ++ replicate 30 0 ++ [0xFF; 0xFF; 7]) 1) ∧
  length (records ([0xAA; 0x50] ++ replicate 30 0 ++ [0xFF; 0xFF; 7]) 1) = 1%nat.
Proof.
  destruct (proj1 (decode_stops_at_sentinel
              ([0xAA; 0x50] ++ replicate 30 0 ++ [0xFF; 0xFF; 7]) 1))
    as (Hd & _ & _ & Hall & _).
  - reflexivity.
  - intros j Hj. replace j with 0%nat by lia. vm_compute. discriminate.
  - split; [exact Hd|]. apply Hall.
    intros j Hj. replace j with 0%nat by lia. reflexivity.
Defined.

(** C5, refuted as stated: the sentinel sits in slot 1, yet the result
    has no record, because slot 0 does not carry the magic. *)
Lemma sentinel_count_mismatch :
  let data := replicate 32 0 ++ [0xFF; 0xFF] in
  is_sentinel (stride data 1) ∧
  ¬ is_sentinel (stride data 0) ∧
  decode_partition_table data = Ok [] ∧
  ¬ ∃ es, decode_partition_table data = Ok es ∧ length es = 1%nat.
Proof.
  simpl. split; [reflexivity|]. split; [vm_compute; discriminate|].
  split; [reflexivity|]. intros (es & Hes & Hl).
  vm_compute in Hes. by simplify_eq.
Qed.

Lemma decode_skip_first slot rest m :
  length slot = 32%nat → ¬ is_sentinel slot →
  magic_of slot = Some m → m ≠ MAGIC →
  decode_partition_table (slot ++ rest) = decode_partition_table rest.
Proof.
  intros Hlen Hs Hm Hne.
  rewrite decode_unfold by (destruct slot; simpl in *; [lia|done]).
  rewrite take_app_length', drop_app_length' by done.
  by rewrite (parse_slot_skip slot m).
Qed.

Lemma decode_skip_at n pre slot rest m :
  length pre = (32 * n)%nat → length slot = 32%nat → ¬ is_sentinel slot →
  magic_of slot = Some m → m ≠ MAGIC →
  decode_partition_table (pre ++ slot ++ rest)
  = decode_partition_table (pre ++ rest).
Proof.
  intros Hpre Hlen Hs Hm Hne. revert pre Hpre.
  induction n as [|n IH]; intros pre Hpre.
  - destruct pre; [|simpl in Hpre; lia]. simpl. by eapply decode_skip_first.
  - rewrite <-(take_drop 32 pre), <-!app_assoc.
    assert (length (take 32 pre) = 32%nat) as Ht
      by (rewrite length_take; lia).
    rewrite !(decode_unfold (take 32 pre ++ _))
      by (destruct (take 32 pre); simpl in *; [lia|done]).
    rewrite !take_app_length', !drop_app_length' by done.
    rewrite IH by (rewrite length_drop; lia). done.
Qed.

Lemma decode_no_magic data :
  (∀ j, (32 * j < length data)%nat →
        ∃ m, magic_of (stride data j) = Some m ∧ m ≠ MAGIC) →
  decode_partition_table data = Ok [].
Proof.
  induction data as [|data Hne IH] using chunk_ind; intros Hall; [done|].
  destruct (Hall 0%nat) as (m & Hm & Hm');
    [destruct data; simpl in *; [done|lia]|].
  rewrite stride_0 in Hm. rewrite decode_unfold by done.
  destruct (decide (is_sentinel (take 32 data))) as [Hs|Hs].
  { by rewrite parse_slot_sentinel. }
  rewrite (parse_slot_skip _ m), bind_Ok by done.
  apply IH. intros j Hj. rewrite <-stride_S. apply Hall.
  rewrite length_drop in Hj. lia.
Qed.

Lemma decode_sentinel_first data :
  is_sentinel (stride data 0) → decode_partition_table data = Ok [].
Proof.
  intros Hs. by destruct (decode_until_sentinel 0 data Hs) as [-> _]; [lia|].
Qed.

Lemma decode_skip_then_record slot v (rest : list Z) m :
  length slot = 32%nat → ¬ is_sentinel slot →
  magic_of slot = Some m → m ≠ MAGIC →
  length v = 32%nat → magic_of v = Some MAGIC →
  ∃ e, parse_slot v = Ok (Append e) ∧
       decode_partition_table (slot ++ v ++ rest)
       = (e ::.) <$> decode_partition_table rest.
Proof.
  intros Hlen Hs Hm Hne Hv Hmv.
  destruct (parse_slot_append v Hv Hmv) as (e & He & _).
  exists e. split; [done|].
  rewrite (decode_skip_first slot (v ++ rest) m) by done.
  rewrite decode_unfold by (destruct v; simpl in *; [lia|done]).
  rewrite take_app_length', drop_app_length' by done.
  by rewrite He, bind_Ok.
Qed.

(** X19: a whole 32-byte slot whose first two bytes are neither the magic
    nor the sentinel contributes nothing and does not stop the decoder:
    the table decodes as it does without that slot, and a whole slot
    with the magic that follows it is decoded to a record, ahead of the
    records of the rest. A table each of whose slots has two leading
    bytes other than the magic, or whose first slot is the sentinel,
    decodes to the empty list without an exception. *)
Theorem bad_magic_skipped :
  (∀ n pre slot rest m,
     length pre = (32 * n)%nat → length slot = 32%nat →
     ¬ is_sentinel slot → magic_of slot = Some m → m ≠ MAGIC →
     decode_partition_table (pre ++ slot ++ rest)
     = decode_partition_table (pre ++ rest)) ∧
  (∀ slot v rest m,
     length slot = 32%nat → ¬ is_sentinel slot →
     magic_of slot = Some m → m ≠ MAGIC →
     length v = 32%nat → magic_of v = Some MAGIC →
     ∃ e, parse_slot v = Ok (Append e) ∧
          decode_partition_table (slot ++ v ++ rest)
          = (e ::.) <$> decode_partition_table rest) ∧
  (∀ data,
     (∀ j, (32 * j < length data)%nat →
           ∃ m, magic_of (stride data j) = Some m ∧ m ≠ MAGIC) →
     decode_partition_table data = Ok []) ∧
  (∀ data, is_sentinel (stride data 0) → decode_partition_table data = Ok []).
Proof.
  split; [apply decode_skip_at|].
  split; [apply decode_skip_then_record|].
  split; [apply decode_no_magic|apply decode_sentinel_first].
Qed.

Lemma record_whole_slot :
  parse_slot ([0xAA; 0x50; 0; 0; 0x20; 0x80; 0; 0; 4; 0; 0; 0]
              ++ factory_label ++ [0; 0; 0; 0])
  = Ok (Append record_whole).
Proof. vm_compute. reflexivity. Qed.

Lemma bad_magic_skipped_witness :
  decode_partition_table (replicate 32 1 ++ replicate 32 2 ++ [0xFF; 0xFF])
  = decode_partition_table (replicate 32 1 ++ [0xFF; 0xFF]) ∧
  decode_partition_table
    (replicate 32 1
     ++ ([0xAA; 0x50; 0; 0; 0x20; 0x80; 0; 0; 4; 0; 0; 0]
         ++ factory_label ++ [0; 0; 0; 0])
     ++ [0xFF; 0xFF])
  = Ok [record_whole] ∧
  decode_partition_table (replicate 64 3) = Ok [] ∧
  decode_partition_table [0xFF; 0xFF; 0xAA; 0x50] = Ok [].
Proof.
  destruct bad_magic_skipped as (Hskip & Hnext & Hnone & Hfirst).
  split; [|split; [|split]].
  - apply (Hskip 1%nat (replicate 32 1) (replicate 32 2) [0xFF; 0xFF] 514).
    + reflexivity.
    + reflexivity.
    + vm_compute. discriminate.
    + reflexivity.
    + vm_compute. discriminate.
  - destruct (Hnext (replicate 32 1)
                ([0xAA; 0x50; 0; 0; 0x20; 0x80; 0; 0; 4; 0; 0; 0]
                 ++ factory_label ++ [0; 0; 0; 0])
                [0xFF; 0xFF] 257) as (e & He & Hd).
    + reflexivity.
    + vm_compute. discriminate.
    + reflexivity.
    + vm_compute. discriminate.
    + reflexivity.
    + reflexivity.
    + rewrite record_whole_slot in He. injection He as <-. exact Hd.
  - apply Hnone. intros j Hj. exists 771.
    assert (j = 0 ∨ j = 1)%nat as [-> | ->] by (simpl in Hj; lia);
      (split; [reflexivity|vm_compute; discriminate]).
  - apply Hfirst. reflexivity.
Defined.

Lemma decode_whole_slots n data :
  length data = (32 * n)%nat → ∃ es, decode_partition_table data = Ok es.
Proof.
  revert data. induction n as [|n IH]; intros data Hlen.
  - destruct data; [by exists []|simpl in Hlen; lia].
  - destruct (IH (drop 32 data)) as [es Hes]; [rewrite length_drop; lia|].
    rewrite decode_unfold by (destruct data; simpl in *; [lia|done]).
    destruct (decide (is_sentinel (take 32 data))) as [Hs|Hs].
    { rewrite parse_slot_sentinel by done. by exists []. }
    destruct (parse_slot_full (take 32 data)) as [[_ [e He]]|[_ Hc]];
      [rewrite length_take; lia|done| |].
    + rewrite He, bind_Ok, Hes. by eexists.
    + rewrite Hc, bind_Ok, Hes. by eexists.
Qed.

(** C2, where the code departs from it: the last pass of the loop reads
    a trailing slot of fewer than 32 bytes, and [struct.unpack] or the
    indexing raises on it. One trailing byte raises [struct.error]; a
    trailing slot that carries the magic but is cut short raises
    [IndexError] or [struct.error]. [main] reaches this with a backup
    file that ends inside the table region. *)
Theorem decode_partial_slot_raises :
  decode_partition_table [0] = Raise StructError ∧
  decode_partition_table (replicate 32 0 ++ [0]) = Raise StructError ∧
  decode_partition_table [0xAA; 0x50] = Raise IndexError ∧
  decode_partition_table ([0xAA; 0x50; 0; 0] ++ replicate 27 0)
  = Raise StructError ∧
  main (replicate (Z.to_nat 0x8000) 0 ++ [0]) = Raise StructError.
Proof. repeat split; vm_compute; reflexivity. Qed.

(** C6, where the code departs from it: the table of one whole slot of
    zero bytes and one further byte has no sentinel and no slot with the
    magic, so it has zero valid records; the whole slot is skipped, and
    then [struct.unpack("<H", ...)] raises on the one-byte slot instead
    of the decoder returning the empty list. [main] reaches this with a
    backup file of 0x8021 bytes. It is the defect of C2. *)
Theorem decode_no_valid_record_raises :
  length (stride (replicate 32 0 ++ [0]) 0) = 32%nat ∧
  magic_of (stride (replicate 32 0 ++ [0]) 0) = Some 0 ∧
  parse_slot (stride (replicate 32 0 ++ [0]) 0) = Ok Continue ∧
  stride (replicate 32 0 ++ [0]) 1 = [0] ∧
  valid_slots (replicate 32 0 ++ [0]) 2 = 0%nat ∧
  decode_partition_table (replicate 32 0) = Ok [] ∧
  decode_partition_table (replicate 32 0 ++ [0]) = Raise StructError ∧
  main (replicate (Z.to_nat 0x8000) 0 ++ replicate 32 0 ++ [0])
  = Raise StructError.
Proof. repeat split; vm_compute; reflexivity. Qed.

End decoder.

(** ** Extraction of the factory application *)

Section extraction.
Import Py Partition.
Implicit Types (raw data : list Z) (e : entry).

Lemma le_value_nonneg (b : list Z) : is_bytes b → 0 ≤ le_value b.
Proof.
  unfold is_bytes, byte_ok, le_value.
  induction 1 as [|x b Hx _ IH]; simpl; lia.
Qed.

Lemma is_bytes_slice data a b : is_bytes data → is_bytes (slice data a b).
Proof. intros Hd. unfold slice. by apply Forall_take, Forall_drop. Qed.

(** Offsets and sizes decoded from a byte string are not negative. *)
Lemma decode_fields_nonneg data es :
  is_bytes data → decode_partition_table data = Ok es →
  Forall (λ e, 0 ≤ offset e ∧ 0 ≤ size e) es.
Proof.
  revert es. induction data as [|data Hne IH] using chunk_ind;
    intros es Hb Hd.
  { rewrite decode_nil in Hd. by simplify_eq. }
  rewrite decode_unfold in Hd by done.
  assert (is_bytes (drop 32 data)) as Hb' by by apply Forall_drop.
  destruct (parse_slot (take 32 data)) as [[| |e]|] eqn:Hp;
    rewrite ?bind_Ok, ?bind_Raise in Hd; simplify_eq; auto.
  destruct (decode_partition_table (drop 32 data)) as [es'|] eqn:Hd';
    simpl in Hd; simplify_eq.
  constructor; [|by apply IH].
  apply parse_slot_append_inv in Hp as (_ & -> & -> & _).
  split; apply le_value_nonneg; by apply Forall_take, Forall_drop, Forall_take.
Qed.

Lemma factory_app_elem es e : factory_app es = Some e → e ∈ es.
Proof.
  unfold factory_app. intros He. apply head_Some_elem_of in He.
  by apply list_elem_of_filter in He as [_ ?].
Qed.

Lemma extract_nonneg raw e :
  0 ≤ offset e → 0 ≤ size e →
  extract raw e = take (Z.to_nat (size e)) (drop (Z.to_nat (offset e)) raw).
Proof.
  intros Ho Hz. unfold extract. rewrite slice_pos by lia. f_equal. lia.
Qed.

(** C1, as the code has it: the extraction is the plain slice
    [raw[offset : offset + size]]. It never raises; its length is
    [size] when the range lies inside the image, and otherwise the
    slice is cut at the end of the image. *)
Theorem extraction_is_slice raw es e :
  is_bytes raw →
  decode_partition_table (slice raw 0x8000 (0x8000 + 0xC00)) = Ok es →
  factory_app es = Some e →
  main raw = Ok (Extracted (extract raw e)) ∧
  extract raw e = take (Z.to_nat (size e)) (drop (Z.to_nat (offset e)) raw) ∧
  len (extract raw e) = Z.min (size e) (Z.max 0 (len raw - offset e)) ∧
  (offset e + size e ≤ len raw → len (extract raw e) = size e).
Proof.
  intros Hb Hd Hf.
  assert (0 ≤ offset e ∧ 0 ≤ size e) as [Ho Hz].
  { eapply decode_fields_nonneg in Hd; [|by apply is_bytes_slice].
    rewrite Forall_forall in Hd. by apply Hd, factory_app_elem. }
  split; [|split; [by apply extract_nonneg|]].
  - unfold main. rewrite Hd, bind_Ok, Hf.
    destruct es; [done|reflexivity].
  - rewrite extract_nonneg by done. unfold len.
    rewrite length_take, length_drop. split; lia.
Qed.

Lemma image_whole_bytes : is_bytes image_whole.
Proof. apply (bool_decide_unpack _). vm_compute. exact I. Qed.

Lemma image_whole_table :
  decode_partition_table (slice image_whole 0x8000 (0x8000 + 0xC00))
  = Ok [record_whole].
Proof. vm_compute. reflexivity. Qed.

Lemma image_whole_factory : factory_app [record_whole] = Some record_whole.
Proof. vm_compute. reflexivity. Qed.

Lemma extraction_is_slice_witness :
  main image_whole = Ok (Extracted (extract image_whole record_whole)) ∧
  extract image_whole record_whole
  = take (Z.to_nat (size record_whole))
         (drop (Z.to_nat (offset record_whole)) image_whole) ∧
  len (extract image_whole record_whole)
  = Z.min (size record_whole)
          (Z.max 0 (len image_whole - offset record_whole)) ∧
  (offset record_whole + size record_whole ≤ len image_whole →
   len (extract image_whole record_whole) = size record_whole).
Proof.
  exact (extraction_is_slice image_whole [record_whole] record_whole
           image_whole_bytes image_whole_table image_whole_factory).
Defined.

Lemma image_short_table :
  decode_partition_table (slice image_short 0x8000 (0x8000 + 0xC00))
  = Ok [record_short].
Proof. vm_compute. reflexivity. Qed.

Lemma image_short_main :
  main image_short = Ok (Extracted (drop (Z.to_nat 0x8000) image_short)).
Proof. vm_compute. reflexivity. Qed.

Lemma image_short_len :
  len image_short = 0x8022 ∧ len (drop (Z.to_nat 0x8000) image_short) = 34.
Proof. split; vm_compute; reflexivity. Qed.

(** C1, refuted as stated: the selected record's range ends beyond the
    image; [main] raises nothing and writes the 34 bytes that exist,
    fewer than the record's size. *)
Lemma extraction_clamped :
  decode_partition_table (slice image_short 0x8000 (0x8000 + 0xC00))
  = Ok [record_short] ∧
  factory_app [record_short] = Some record_short ∧
  len image_short < offset record_short + size record_short ∧
  main image_short = Ok (Extracted (drop (Z.to_nat 0x8000) image_short)) ∧
  len (drop (Z.to_nat 0x8000) image_short) = 34 ∧
  34 < size record_short ∧
  ¬ ∃ x, main image_short = Raise x.
Proof.
  destruct image_short_len as [Hl Hd].
  split; [exact image_short_table|]. split; [reflexivity|].
  split; [rewrite Hl; reflexivity|]. split; [exact image_short_main|].
  split; [exact Hd|]. split; [reflexivity|].
  intros [x Hx]. rewrite image_short_main in Hx. discriminate.
Qed.

End extraction.

(** ** Searching for a literal: [bytes.count] and [re.finditer] *)

Section literal_search.
Import Py.
Variable e : Z → Z → bool.
Variable f : Z → Z.
Hypothesis e_spec : ∀ x y, e x y = true ↔ f x = f y.
Implicit Types (p s data rest : list Z).

Lemma starts_with_spec p s :
  starts_with e p s = true ↔ f <$> take (length p) s = f <$> p.
Proof.
  revert s. induction p as [|x p IH]; intros s; [done|].
  destruct s as [|y s]; [done|].
  cbn [starts_with length firstn]. rewrite !fmap_cons.
  rewrite andb_true_iff, e_spec, IH. split.
  - intros [Hxy Hps]. by rewrite Hxy, Hps.
  - intros [= ? ?]. done.
Qed.

Lemma starts_with_occurs p data i :
  starts_with e p (drop i data) = true ↔ occurs_at f p data i.
Proof. apply starts_with_spec. Qed.

(** Two occurrences less than [length p] apart exhibit a border. *)
Lemma overlap_border p s k :
  (0 < k < length p)%nat →
  f <$> take (length p) s = f <$> p →
  f <$> take (length p) (drop k s) = f <$> p →
  border_at f p k.
Proof.
  intros Hk H0 Hk'. unfold border_at.
  apply (f_equal (drop k)) in H0. rewrite <-!fmap_drop in H0.
  apply (f_equal (take (length p - k))) in Hk'.
  rewrite <-!fmap_take, take_take in Hk'.
  rewrite <-H0, <-Hk'. f_equal.
  rewrite take_drop_commute. do 2 f_equal. lia.
Qed.

Lemma filter_seq_S (Q : nat → Prop) `{!∀ i, Decision (Q i)} n :
  length (filter Q (seq 0 (S n)))
  = ((if decide (Q 0%nat) then 1 else 0)
     + length (filter (λ i, Q (S i)) (seq 0 n)))%nat.
Proof.
  rewrite <-cons_seq, <-fmap_S_seq, filter_cons.
  assert (length (filter Q (S <$> seq 0 n))
          = length (filter (λ i, Q (S i)) (seq 0 n))) as Heq.
  { induction (seq 0 n) as [|j l IH]; [done|].
    rewrite fmap_cons, !filter_cons.
    destruct (decide _); simpl; by rewrite IH. }
  destruct (decide _); simpl; by rewrite Heq.
Qed.

Lemma occurrence_count_cons p x rest :
  occurrence_count f p (x :: rest)
  = ((if decide (occurs_at f p (x :: rest) 0) then 1 else 0)
     + occurrence_count f p rest)%nat.
Proof.
  unfold occurrence_count.
  change (length (x :: rest)) with (S (length rest)).
  by rewrite filter_seq_S.
Qed.

Lemma occurrence_count_nil p : occurrence_count f p [] = 0%nat.
Proof. reflexivity. Qed.

Lemma occurrence_count_drop p n data :
  (∀ i, (i < n)%nat → ¬ occurs_at f p data i) →
  occurrence_count f p data = occurrence_count f p (drop n data).
Proof.
  revert data. induction n as [|n IH]; intros data Hno; [done|].
  destruct data as [|x data]; [done|].
  rewrite occurrence_count_cons, decide_False by (apply Hno; lia).
  simpl. apply IH. intros i Hi. apply (Hno (S i)). lia.
Qed.

(** For a pattern without a border, skipping over a match loses no
    occurrence: the search finds every start position. *)
Lemma scan_length p :
  p ≠ [] → border_free f p →
  ∀ fuel pos rest, (length rest < fuel)%nat →
    length (scan e fuel p pos rest) = occurrence_count f p rest.
Proof.
  intros Hp Hfree. induction fuel as [|fuel IH]; intros pos rest Hfuel; [lia|].
  destruct rest as [|x rest].
  { simpl. destruct p; [done|]. done. }
  cbn [scan]. rewrite occurrence_count_cons.
  destruct (starts_with e p (x :: rest)) eqn:Hs.
  - apply (starts_with_occurs p (x :: rest) 0) in Hs as Ho.
    rewrite decide_True by done.
    assert (0 < length p)%nat as Hlen by (destruct p; simpl; [done|lia]).
    rewrite Nat.max_r by lia.
    cbn [length] in Hfuel |- *.
    rewrite IH by (rewrite length_drop; cbn [length]; lia).
    f_equal. rewrite (occurrence_count_drop p (length p - 1) rest).
    + f_equal. destruct p as [|y p]; [done|]. simpl.
      by rewrite Nat.sub_0_r.
    + intros i Hi Hoi. unfold border_free in Hfree.
      rewrite Forall_forall in Hfree. apply (Hfree (S i)).
      * apply elem_of_seq. lia.
      * apply (overlap_border p (x :: rest) (S i)); [lia|exact Ho|exact Hoi].
  - cbn [length] in Hfuel.
    rewrite decide_False; [by rewrite IH by lia|].
    intros Ho. apply (starts_with_occurs p (x :: rest) 0) in Ho.
    rewrite drop_0 in Ho. congruence.
Qed.

Lemma occurrences_length p data :
  p ≠ [] → border_free f p →
  length (occurrences e p data) = occurrence_count f p data.
Proof. intros Hp Hfree. unfold occurrences. apply scan_length; auto. Qed.

End literal_search.

(** ** Opcode and driver signature counts *)

Section counts.
Import Py Analyze.
Implicit Types (data : list Z) (d : string).

Lemma eqb_spec_id x y : (x =? y) = true ↔ id x = id y.
Proof. apply Z.eqb_eq. Qed.

Lemma ci_eqb_spec x y : ci_eqb x y = true ↔ lower_byte x = lower_byte y.
Proof. apply Z.eqb_eq. Qed.

Lemma occurs_single c data i : occurs_at id [c] data i ↔ data !! i = Some c.
Proof.
  unfold occurs_at. rewrite !list_fmap_id.
  rewrite <-(Nat.add_0_r i) at 2. rewrite <-lookup_drop.
  destruct (drop i data) as [|y [|z l]]; simpl; naive_solver.
Qed.

Lemma count_single data c : count data [c] = positions_holding c data.
Proof.
  unfold count.
  rewrite (occurrences_length Z.eqb id eqb_spec_id) by (done || constructor).
  unfold occurrence_count, positions_holding. f_equal.
  apply list_filter_iff. intros i. apply occurs_single.
Qed.

Lemma elem_of_search_init_commands_in table data cmd name n :
  (cmd, name, n) ∈ search_init_commands_in table data ↔
  (cmd, name) ∈ table ∧ n = positions_holding cmd data ∧ (0 < n)%nat.
Proof.
  unfold search_init_commands_in. rewrite list_elem_of_omap. split.
  - intros ([c nm] & Hin & Hsome). rewrite count_single in Hsome.
    destruct (Nat.ltb_spec 0 (positions_holding c data)); simplify_eq. done.
  - intros (Hin & -> & Hpos). exists (cmd, name). split; [done|].
    rewrite count_single.
    by destruct (Nat.ltb_spec 0 (positions_holding cmd data)); [|lia].
Qed.

(** C8: for each opcode of the table the result holds the number of
    positions of the buffer with that byte value, and no entry when that
    number is zero; on [b"\x11\x11\x29"] the counts are 2 and 1. *)
Theorem search_init_commands_counts :
  (∀ table data cmd name n,
     (cmd, name, n) ∈ search_init_commands_in table data ↔
     (cmd, name) ∈ table ∧ n = positions_holding cmd data ∧ (0 < n)%nat) ∧
  (∀ data cmd name n,
     (cmd, name, n) ∈ search_init_commands data ↔
     (cmd, name) ∈ ili_commands ∧ n = positions_holding cmd data ∧ (0 < n)%nat) ∧
  search_init_commands [0x11; 0x11; 0x29]
  = [(0x11, "Sleep Out", 2%nat); (0x29, "Display On", 1%nat)]%string ∧
  search_init_commands_in [(0x11, "Sleep Out"); (0x29, "Display On")]%string
                          [0x11; 0x11; 0x29]
  = [(0x11, "Sleep Out", 2%nat); (0x29, "Display On", 1%nat)]%string.
Proof.
  split; [apply elem_of_search_init_commands_in|].
  split; [intros; apply elem_of_search_init_commands_in|].
  split; reflexivity.
Qed.

Lemma drivers_border_free :
  Forall (λ d, encode_ascii d ≠ [] ∧ border_free lower_byte (encode_ascii d))
         drivers.
Proof. apply (bool_decide_unpack _). vm_compute. exact I. Qed.

Lemma drivers_NoDup : NoDup drivers.
Proof. apply (bool_decide_unpack _). vm_compute. exact I. Qed.

Lemma finditer_length d data :
  d ∈ drivers →
  length (finditer_ignorecase (encode_ascii d) data) = ci_occurrences d data.
Proof.
  intros Hd. pose proof drivers_border_free as Hall.
  rewrite Forall_forall in Hall. destruct (Hall d Hd) as [Hne Hfree].
  unfold finditer_ignorecase, ci_occurrences.
  by apply (occurrences_length ci_eqb lower_byte ci_eqb_spec).
Qed.

Lemma search_drivers_in_lookup ds data d :
  NoDup ds →
  search_drivers_in ds data !! d =
  if decide (d ∈ ds) then
    match finditer_ignorecase (encode_ascii d) data with
    | [] => None
    | m => Some (length m)
    end
  else None.
Proof.
  induction ds as [|x ds IH] using rev_ind; intros Hnd; [done|].
  apply NoDup_app in Hnd as (Hnd & Hx & _).
  unfold search_drivers_in in *. rewrite foldl_snoc.
  specialize (IH Hnd).
  destruct (decide (d = x)) as [->|Hne].
  - rewrite decide_True by set_solver.
    rewrite decide_False in IH by (intros Hin; apply (Hx x Hin); set_solver).
    destruct (finditer_ignorecase (encode_ascii x) data) eqn:Hm; [done|].
    by rewrite lookup_insert_eq.
  - assert (search_drivers_in (ds ++ [x]) data !! d
            = search_drivers_in ds data !! d) as Heq.
    { unfold search_drivers_in. rewrite foldl_snoc.
      destruct (finditer_ignorecase (encode_ascii x) data); [done|].
      by rewrite lookup_insert_ne. }
    unfold search_drivers_in in Heq. rewrite foldl_snoc in Heq.
    rewrite Heq, IH.
    destruct (decide (d ∈ ds)); [by rewrite decide_True by set_solver|].
    by rewrite decide_False by set_solver.
Qed.

Lemma search_drivers_lookup data d :
  search_drivers data !! d =
  if decide (d ∈ drivers) then
    if decide (ci_occurrences d data = 0%nat) then None
    else Some (ci_occurrences d data)
  else None.
Proof.
  unfold search_drivers. rewrite search_drivers_in_lookup by apply drivers_NoDup.
  destruct (decide (d ∈ drivers)) as [Hd|]; [|done].
  rewrite <-finditer_length by done.
  by destruct (finditer_ignorecase (encode_ascii d) data).
Qed.

(** C7: a listed signature is mapped to the number of start positions
    at which it occurs when letter case is ignored (no listed signature
    can overlap itself, so the non-overlapping search of [re.finditer]
    misses none), and is absent when that number is zero; nothing else
    is in the result. A buffer in which ILI9341 occurs at exactly two
    positions has the entry 2 for it, and the result is
    [{"ILI9341": 2}] when no other listed signature occurs. *)
Theorem search_drivers_counts data :
  (∀ d, d ∈ drivers →
        search_drivers data !! d =
        if decide (ci_occurrences d data = 0%nat) then None
        else Some (ci_occurrences d data)) ∧
  (∀ d, d ∉ drivers → search_drivers data !! d = None) ∧
  (ci_occurrences "ILI9341" data = 2%nat →
   search_drivers data !! "ILI9341"%string = Some 2%nat ∧
   ((∀ d, d ∈ drivers → d ≠ "ILI9341"%string → ci_occurrences d data = 0%nat) →
    search_drivers data = {[ "ILI9341"%string := 2%nat ]})).
Proof.
  split; [|split].
  - intros d Hd. rewrite search_drivers_lookup. by rewrite decide_True.
  - intros d Hd. rewrite search_drivers_lookup. by rewrite decide_False.
  - intros H2.
    assert (search_drivers data !! "ILI9341"%string = Some 2%nat) as Hl.
    { rewrite search_drivers_lookup.
      rewrite decide_True by (unfold drivers; set_solver).
      rewrite H2. done. }
    split; [done|]. intros Hothers. apply map_eq. intros d.
    destruct (decide (d = "ILI9341"%string)) as [->|Hne].
    + by rewrite Hl, lookup_singleton_eq.
    + rewrite lookup_singleton_ne by done.
      rewrite search_drivers_lookup.
      destruct (decide (d ∈ drivers)) as [Hd|]; [|done].
      by rewrite (Hothers d Hd Hne).
Qed.

Lemma sample_buffer_counts :
  ci_occurrences "ILI9341" (encode_ascii "tft: ILI9341 / ili9341 ok") = 2%nat ∧
  Forall (λ d, d ≠ "ILI9341"%string →
               ci_occurrences d (encode_ascii "tft: ILI9341 / ili9341 ok") = 0%nat)
         drivers.
Proof. split; [vm_compute; reflexivity|]. apply (bool_decide_unpack _). vm_compute. exact I. Qed.

Lemma search_drivers_counts_witness :
  search_drivers (encode_ascii "tft: ILI9341 / ili9341 ok")
  = {[ "ILI9341"%string := 2%nat ]}.
Proof.
  destruct sample_buffer_counts as [H2 Hothers].
  destruct (search_drivers_counts (encode_ascii "tft: ILI9341 / ili9341 ok"))
    as (_ & _ & Hex).
  destruct (Hex H2) as [_ Hmap]. apply Hmap.
  intros d Hd Hne. rewrite Forall_forall in Hothers. by apply Hothers.
Defined.

(** The search itself is non-overlapping: a pattern with a border is
    found once where it occurs at two overlapping positions. *)
Remark finditer_skips_overlap :
  finditer_ignorecase [65; 65] [65; 65; 65] = [0%nat] ∧
  occurrence_count lower_byte [65; 65] [65; 65; 65] = 2%nat.
Proof. split; reflexivity. Qed.

End counts.

(** ** Keyword strings *)

Section strings.
Import Py Analyze.
Implicit Types (data r pre post : list Z).

#[local] Abbreviation printables := (Forall (λ b, printable b = true)).
#[local] Abbreviation stops post :=
  (∀ x, head post = Some x → printable x = false).

Lemma run_decomp data :
  ∃ post, data = run data ++ post ∧ printables (run data) ∧ stops post.
Proof.
  induction data as [|b data (post & Hd & Hp & Hs)]; simpl.
  { exists []. by repeat split. }
  destruct (printable b) eqn:Hb.
  - exists post. split; [by rewrite Hd at 1|]. split; [by constructor|done].
  - exists (b :: data). split; [done|]. split; [constructor|].
    intros x [= <-]. done.
Qed.

Lemma run_unique data r post :
  data = r ++ post → printables r → stops post → r = run data.
Proof.
  intros -> Hp Hs. induction Hp as [|x r Hx _ IH]; simpl.
  - destruct post as [|y post]; [done|]. simpl. by rewrite (Hs y).
  - rewrite Hx. by f_equal.
Qed.

Lemma split_runs_run data :
  ∃ rs, split_runs data = run data :: rs ∧
        split_runs (drop (length (run data)) data) = [] :: rs.
Proof.
  induction data as [|b data (rs & Hr & Hd)]; simpl.
  { by exists []. }
  destruct (printable b) eqn:Hb; simpl.
  - exists rs. by rewrite Hr, Hd.
  - exists (split_runs data). by rewrite Hb.
Qed.

#[local] Abbreviation long := (λ r : list Z, (4 ≤ length r)%nat).

Lemma findall_from_split fuel data :
  (length data ≤ fuel)%nat →
  findall_from fuel data = filter long (split_runs data).
Proof.
  revert data. induction fuel as [|fuel IH]; intros data Hfuel.
  { destruct data; [done|simpl in Hfuel; lia]. }
  destruct data as [|b data]; [done|].
  cbn [findall_from].
  destruct (split_runs_run (b :: data)) as (rs & Hr & Hd).
  destruct (Nat.leb_spec 4 (length (run (b :: data)))) as [Hlong|Hshort].
  - rewrite IH, Hr, Hd.
    + rewrite (filter_cons_True long (run (b :: data))) by done.
      by rewrite (filter_cons_False long []) by (cbn [length]; lia).
    + rewrite length_drop. cbn [length] in Hfuel |- *. lia.
  - rewrite IH by (cbn [length] in Hfuel; lia). rewrite Hr.
    rewrite (filter_cons_False long (run (b :: data))) by lia.
    cbn [run split_runs] in Hr, Hshort. destruct (printable b) eqn:Hb.
    + destruct (split_runs_run data) as (rs' & Hr' & _).
      rewrite Hr' in Hr. simplify_eq. rewrite Hr'.
      rewrite (filter_cons_False long (run data)); [done|].
      cbn [length] in Hshort. lia.
    + by simplify_eq.
Qed.

Lemma last_cons_ne {A} (x : A) (l : list A) : l ≠ [] → last (x :: l) = last l.
Proof. by destruct l. Qed.

Lemma inner_run_cons b data r :
  inner_run (b :: data) r ↔
  (printable b = false ∧ r = run data) ∨ inner_run data r.
Proof.
  split.
  - intros (pre & post & Hne & Hd & Hp & Hl & Hs).
    destruct pre as [|b' pre]; [done|]. simplify_eq/=.
    destruct pre as [|y pre].
    + left. split; [by apply Hl|]. by eapply run_unique.
    + right. exists (y :: pre), post. by repeat split.
  - intros [[Hb ->]|(pre & post & Hne & -> & Hp & Hl & Hs)].
    + destruct (run_decomp data) as (post & Hd & Hp & Hs).
      exists [b], post. repeat split; try done.
      * simpl. by rewrite Hd at 1.
      * by intros x [= <-].
    + exists (b :: pre), post. repeat split; try done.
      by rewrite last_cons_ne.
Qed.

Lemma split_runs_inner data :
  ∃ rs, split_runs data = run data :: rs ∧ ∀ r, r ∈ rs ↔ inner_run data r.
Proof.
  induction data as [|b data (rs & Hr & Hin)].
  { exists []. split; [done|]. intros r. split; [by intros ?%not_elem_of_nil|].
    intros (pre & post & Hne & Hd & _). by destruct pre. }
  simpl. rewrite Hr. destruct (printable b) eqn:Hb.
  - exists rs. split; [done|]. intros r.
    rewrite inner_run_cons, Hin.
    split; [by right|]. intros [[Hc _]|?]; [congruence|done].
  - exists (run data :: rs). split; [done|]. intros r.
    rewrite inner_run_cons, elem_of_cons, Hin.
    split; [intros [->|?]; auto|intros [[_ ->]|?]; auto].
Qed.

Lemma maximal_run_cases data r :
  maximal_run data r ↔ r = run data ∨ inner_run data r.
Proof.
  split.
  - intros (pre & post & Hd & Hp & Hl & Hs).
    destruct pre as [|b pre].
    + left. by eapply run_unique.
    + right. exists (b :: pre), post. by repeat split.
  - intros [->|(pre & post & _ & Hd & Hp & Hl & Hs)].
    + destruct (run_decomp data) as (post & Hd & Hp & Hs).
      exists [], post. by repeat split.
    + exists pre, post. by repeat split.
Qed.

Lemma elem_of_split_runs data r : r ∈ split_runs data ↔ maximal_run data r.
Proof.
  destruct (split_runs_inner data) as (rs & -> & Hin).
  by rewrite maximal_run_cases, elem_of_cons, Hin.
Qed.

(** The matches of the pattern are the maximal printable runs of at
    least 4 bytes. *)
Lemma elem_of_findall data r :
  r ∈ findall data ↔ maximal_run data r ∧ (4 ≤ length r)%nat.
Proof.
  unfold findall. rewrite findall_from_split by done.
  by rewrite list_elem_of_filter, elem_of_split_runs, (comm and).
Qed.

Lemma prefix_take (sub s : list Z) :
  take (length sub) s = sub ↔ ∃ l2, s = sub ++ l2.
Proof.
  split.
  - intros Ht. exists (drop (length sub) s).
    by rewrite <-Ht at 1; rewrite take_drop.
  - intros [l2 ->]. apply take_app_length.
Qed.

Lemma starts_with_prefix (sub s : list Z) :
  starts_with Z.eqb sub s = true ↔ ∃ l2, s = sub ++ l2.
Proof.
  rewrite (starts_with_spec Z.eqb id eqb_spec_id), !list_fmap_id.
  apply prefix_take.
Qed.

Lemma contains_spec (sub s : list Z) :
  contains sub s = true ↔ ∃ l1 l2, s = l1 ++ sub ++ l2.
Proof.
  induction s as [|y s IH]; cbn [contains];
    rewrite orb_true_iff, starts_with_prefix.
  - split.
    + intros [[l2 Hl]|?]; [|done]. by exists [], l2.
    + intros (l1 & l2 & Hl). left.
      destruct l1; [|done]. by exists l2.
  - rewrite IH. split.
    + intros [[l2 Hl]|(l1 & l2 & ->)]; [by exists [], l2|].
      by exists (y :: l1), l2.
    + intros (l1 & l2 & Hl). destruct l1 as [|y' l1].
      * left. by exists l2.
      * right. simplify_eq/=. by exists l1, l2.
Qed.

Lemma relevant_run_spec (keywords : list (list Z)) r :
  relevant_run keywords r = true ↔ ∃ kw, kw ∈ keywords ∧ ci_substring kw r.
Proof.
  unfold relevant_run, ci_substring. rewrite any_spec.
  split; intros (kw & Hin & Hc); exists kw; by rewrite contains_spec in *.
Qed.

Lemma decode_ascii_printable r :
  printables r → decode_ascii r = Some (str_of r).
Proof.
  intros Hp. unfold decode_ascii.
  assert (forallb (λ x, x <? 128) r = true) as ->; [|done].
  apply forallb_forall. intros x Hx%list_elem_of_In.
  rewrite Forall_forall in Hp. specialize (Hp x Hx).
  unfold printable in Hp. lia.
Qed.

Lemma elem_of_sorted_set (l : list string) s : s ∈ sorted_set l ↔ s ∈ l.
Proof.
  unfold sorted_set.
  by rewrite merge_sort_Permutation, elem_of_elements, elem_of_list_to_set.
Qed.

Lemma NoDup_sorted_set (l : list string) : NoDup (sorted_set l).
Proof.
  unfold sorted_set. rewrite merge_sort_Permutation. apply NoDup_elements.
Qed.

(** C9: the result has no duplicates, and a string is in it exactly
    when it is the text of a maximal run of printable bytes
    (0x20 to 0x7E) of the buffer that has at least 4 bytes and contains
    some keyword of the list as a substring, letter case ignored. *)
Theorem search_strings_spec data (keywords : list (list Z)) :
  (∀ b, printable b = true ↔ 0x20 ≤ b ≤ 0x7E) ∧
  (∀ s, s ∈ search_strings data keywords ↔
        ∃ r, maximal_run data r ∧ (4 ≤ length r)%nat ∧
             (∃ kw, kw ∈ keywords ∧ ci_substring kw r) ∧
             s = str_of r) ∧
  NoDup (search_strings data keywords).
Proof.
  split; [intros b; unfold printable; lia|].
  split; [|apply NoDup_sorted_set].
  intros s. unfold search_strings.
  rewrite elem_of_sorted_set, list_elem_of_omap. split.
  - intros (r & Hr & Hs). apply elem_of_findall in Hr as [Hmax Hlen].
    exists r. destruct (relevant_run keywords r) eqn:Hrel; [|done].
    apply relevant_run_spec in Hrel.
    assert (printables r) as Hp by (by destruct Hmax as (? & ? & _ & ? & _)).
    rewrite decode_ascii_printable in Hs by done. by simplify_eq.
  - intros (r & Hmax & Hlen & Hkw & ->). exists r.
    split; [by apply elem_of_findall|].
    apply relevant_run_spec in Hkw as ->.
    apply decode_ascii_printable. by destruct Hmax as (? & ? & _ & ? & _).
Qed.

(** An evaluation of the scanner: the run [abc] is too short, [hello]
    holds no keyword, and the repeated [TFT_init] is returned once. *)
Example search_strings_sample :
  search_strings
    (encode_ascii "TFT_init" ++ [0] ++ encode_ascii "abc" ++ [1]
     ++ encode_ascii "hello" ++ [200] ++ encode_ascii "lcd!" ++ [0]
     ++ encode_ascii "TFT_init")
    [encode_ascii "TFT"; encode_ascii "LCD"]
  = ["TFT_init"; "lcd!"]%string.
Proof. vm_compute. reflexivity. Qed.

End strings.

(** ** More on the partition table decoder *)

Section decoder_more.
Import Py Partition Layout.
Implicit Types (data slot raw : list Z) (e : entry).

Lemma parse_slot_fields slot e :
  parse_slot slot = Ok (Append e) →
  ∃ typ sub,
    slot !! 2%nat = Some typ ∧ slot !! 3%nat = Some sub ∧
    (32 ≤ length slot)%nat ∧
    e = {| label := decode_ascii_ignore (split_first 0 (take 16 (drop 12 slot)));
           type := type_str typ;
           subtype := subtype_str typ sub;
           offset := le_value (take 4 (drop 4 slot));
           size := le_value (take 4 (drop 8 slot));
           flags := le_value (take 4 (drop 28 slot)) |}.
Proof.
  rewrite parse_slot_eq. case_bool_decide as Hs; [done|].
  destruct (unpack 2 (take 2 slot)) as [magic|] eqn:Hu;
    [rewrite bind_Ok|by rewrite bind_Raise].
  case_bool_decide as Hm; [done|].
  unfold index.
  destruct (slot !! 2%nat) as [typ|]; [rewrite bind_Ok|by rewrite bind_Raise].
  destruct (slot !! 3%nat) as [sub|]; [rewrite bind_Ok|by rewrite bind_Raise].
  destruct (unpack 4 (take 4 (drop 4 slot))) as [o|] eqn:Ho;
    [rewrite bind_Ok|by rewrite bind_Raise].
  destruct (unpack 4 (take 4 (drop 8 slot))) as [z|] eqn:Hz;
    [rewrite bind_Ok|by rewrite bind_Raise].
  destruct (unpack 4 (take 4 (drop 28 slot))) as [f|] eqn:Hf;
    [rewrite bind_Ok|by rewrite bind_Raise].
  intros [= <-]. exists typ, sub.
  unfold unpack in Ho, Hz, Hf. repeat case_bool_decide; simplify_eq.
  repeat split; try done.
  match goal with H : length (take 4 (drop 28 slot)) = _ |- _ =>
    rewrite length_take, length_drop in H; lia end.
Qed.

Lemma le_value_bound (b : list Z) :
  is_bytes b → 0 ≤ le_value b < 256 ^ Z.of_nat (length b).
Proof.
  unfold is_bytes, byte_ok, le_value.
  induction 1 as [|x b Hx _ IH]; [simpl; lia|].
  cbn [foldr length]. rewrite Nat2Z.inj_succ, Z.pow_succ_r by lia. lia.
Qed.

Lemma str_of_length (l : list Z) : String.length (str_of l) = length l.
Proof. induction l; simpl; congruence. Qed.

Lemma split_first_length sep (b : list Z) :
  (length (split_first sep b) ≤ length b)%nat.
Proof. induction b; simpl; [done|]. case_bool_decide; simpl; lia. Qed.

Lemma label_length slot :
  (String.length (decode_ascii_ignore (split_first 0 (take 16 (drop 12 slot))))
   ≤ 16)%nat.
Proof.
  unfold decode_ascii_ignore. rewrite str_of_length.
  etrans; [apply length_filter|]. etrans; [apply split_first_length|].
  rewrite length_take. lia.
Qed.

(** A property of every record of a successful decode follows from the
    same property of every record the loop body can build. *)
Lemma decode_Forall (P : entry → Prop) data es :
  (∀ slot e, (∃ j, slot = stride data j) → parse_slot slot = Ok (Append e) → P e) →
  decode_partition_table data = Ok es → Forall P es.
Proof.
  revert es. induction data as [|data Hne IH] using chunk_ind; intros es HP Hd.
  { rewrite decode_nil in Hd. by simplify_eq. }
  rewrite decode_unfold in Hd by done.
  assert (∀ es', decode_partition_table (drop 32 data) = Ok es' → Forall P es')
    as IH'.
  { intros es' Hes'. apply IH; [|done].
    intros slot e [j ->] Hp. apply (HP (stride data (S j))); [by eexists|].
    by rewrite stride_S. }
  destruct (parse_slot (take 32 data)) as [[| |e]|] eqn:Hp;
    rewrite ?bind_Ok, ?bind_Raise in Hd; simplify_eq; auto.
  destruct (decode_partition_table (drop 32 data)) as [es'|] eqn:Hd';
    simpl in Hd; simplify_eq.
  constructor; [|by apply IH'].
  apply (HP (stride data 0)); [by eexists|]. by rewrite stride_0.
Qed.

Lemma is_bytes_stride data j : is_bytes data → is_bytes (stride data j).
Proof. intros Hb. unfold stride. by apply Forall_take, Forall_drop. Qed.

(** X1: Every record decoded from a byte string has its offset, size and
    flags in the unsigned 32-bit range and a label of at most 16
    characters. *)
Theorem decoded_fields_in_range data es :
  is_bytes data →
  decode_partition_table data = Ok es →
  Forall (λ e, 0 ≤ offset e < 2 ^ 32 ∧ 0 ≤ size e < 2 ^ 32 ∧
               0 ≤ flags e < 2 ^ 32 ∧ (String.length (label e) ≤ 16)%nat) es.
Proof.
  intros Hb. apply decode_Forall. intros slot e [j ->] Hp.
  pose proof (is_bytes_stride data j Hb) as Hs.
  apply parse_slot_fields in Hp as (typ & sub & _ & _ & Hlen & ->).
  cbn [offset size flags label].
  assert (∀ k, (k + 4 ≤ 32)%nat →
               0 ≤ le_value (take 4 (drop k (stride data j))) < 2 ^ 32) as Hf.
  { intros k Hk.
    pose proof (le_value_bound (take 4 (drop k (stride data j)))) as Hv.
    rewrite length_take, length_drop in Hv.
    replace (Z.of_nat (4 `min` (length (stride data j) - k))) with 4 in Hv by lia.
    apply Hv. by apply Forall_take, Forall_drop. }
  repeat split; try (apply Hf; lia). apply label_length.
Qed.

Lemma decoded_fields_in_range_witness :
  Forall (λ e, 0 ≤ offset e < 2 ^ 32 ∧ 0 ≤ size e < 2 ^ 32 ∧
               0 ≤ flags e < 2 ^ 32 ∧ (String.length (label e) ≤ 16)%nat)
         [record_whole].
Proof.
  apply (decoded_fields_in_range (slice image_whole 0x8000 (0x8000 + 0xC00))).
  - apply is_bytes_slice, image_whole_bytes.
  - exact image_whole_table.
Defined.

(** X2: Every record takes a whole 32-byte slot: a table of [n] bytes holds
    at most [n / 32] records. *)
Theorem decode_length_bound data es :
  decode_partition_table data = Ok es → (32 * length es ≤ length data)%nat.
Proof.
  revert es. induction data as [|data Hne IH] using chunk_ind; intros es Hd.
  { rewrite decode_nil in Hd. by simplify_eq. }
  rewrite decode_unfold in Hd by done.
  destruct (parse_slot (take 32 data)) as [[| |e]|] eqn:Hp;
    rewrite ?bind_Ok, ?bind_Raise in Hd; simplify_eq.
  - simpl. lia.
  - apply IH in Hd. rewrite length_drop in Hd. lia.
  - destruct (decode_partition_table (drop 32 data)) as [es'|] eqn:Hd';
      simpl in Hd; simplify_eq.
    apply parse_slot_fields in Hp as (_ & _ & _ & _ & Hlen & _).
    rewrite length_take in Hlen.
    specialize (IH es' eq_refl). rewrite length_drop in IH.
    cbn [length]. lia.
Qed.

Lemma decode_length_bound_witness :
  (32 * length [record_whole] ≤
   length (slice image_whole 0x8000 (0x8000 + 0xC00)))%nat.
Proof. exact (decode_length_bound _ _ image_whole_table). Defined.

Lemma decode_app_whole n (t1 t2 : list Z) :
  length t1 = (32 * n)%nat →
  (∀ j, (j < n)%nat → ¬ is_sentinel (stride t1 j)) →
  decode_partition_table (t1 ++ t2)
  = (records t1 n ++.) <$> decode_partition_table t2.
Proof.
  revert t1. induction n as [|n IH]; intros t1 Hlen Hno.
  - destruct t1; [|simpl in Hlen; lia]. simpl.
    by destruct (decode_partition_table t2).
  - assert (t1 ≠ []) as Hne by (destruct t1; simpl in *; [lia|done]).
    rewrite decode_unfold by (destruct t1; simpl in *; done).
    rewrite take_app_le, drop_app_le by lia.
    rewrite IH; [|rewrite length_drop; lia|].
    2:{ intros j Hj. rewrite <-stride_S. apply Hno. lia. }
    rewrite records_S.
    destruct (parse_slot_full (take 32 t1)) as [[_ [e He]]|[_ Hc]].
    { rewrite length_take. lia. }
    { rewrite <-stride_0. apply Hno. lia. }
    + rewrite He, bind_Ok. by destruct (decode_partition_table t2).
    + rewrite Hc, bind_Ok. by destruct (decode_partition_table t2).
Qed.

(** X3: Tables compose: when the first table consists of whole slots and
    holds no sentinel, decoding the concatenation gives the records of
    the first table followed by those of the second, and raises exactly
    when decoding the second one raises. *)
Theorem decode_app n (t1 t2 : list Z) :
  length t1 = (32 * n)%nat →
  (∀ j, (j < n)%nat → ¬ is_sentinel (stride t1 j)) →
  ∃ es1, decode_partition_table t1 = Ok es1 ∧
         decode_partition_table (t1 ++ t2)
         = (es1 ++.) <$> decode_partition_table t2.
Proof.
  intros Hlen Hno. exists (records t1 n). split.
  - by apply decode_exhausted.
  - by apply decode_app_whole.
Qed.

Lemma decode_app_witness :
  ∃ es1, decode_partition_table (replicate 32 7) = Ok es1 ∧
         decode_partition_table (replicate 32 7 ++ [0xFF; 0xFF])
         = (es1 ++.) <$> decode_partition_table [0xFF; 0xFF].
Proof.
  apply (decode_app 1); [reflexivity|].
  intros j Hj. replace j with 0%nat by lia. vm_compute. discriminate.
Defined.

Lemma table_region_length raw :
  0x8C00 ≤ len raw →
  length (slice raw 0x8000 (0x8000 + 0xC00)) = (32 * 96)%nat.
Proof.
  unfold len. intros Hlen. rewrite slice_pos by lia.
  rewrite length_take, length_drop. lia.
Qed.

(** X6: On a backup file that contains the whole table region (at least
    0x8C00 bytes, as every full flash dump does), [main] raises no
    exception, whatever the bytes are. *)
Theorem main_total_on_full_image raw :
  0x8C00 ≤ len raw → ∃ o, main raw = Ok o.
Proof.
  intros Hlen. unfold main.
  destruct (decode_whole_slots 96 (slice raw 0x8000 (0x8000 + 0xC00)))
    as [es Hes]; [by apply table_region_length|].
  rewrite Hes, bind_Ok. destruct es as [|e es]; [by eexists|].
  destruct (factory_app (e :: es)); by eexists.
Qed.

Lemma main_total_on_full_image_witness :
  ∃ o, main (replicate (Z.to_nat 0x8C00) 0xFF) = Ok o.
Proof.
  apply main_total_on_full_image.
  unfold len. rewrite length_replicate. lia.
Defined.

(** X7: A backup file that ends at or before the table region (at most
    0x8000 bytes), or whose table region starts with the sentinel (erased
    flash), has no partitions: nothing is extracted and nothing raised. *)
Theorem main_no_partitions raw :
  (len raw ≤ 0x8000 → main raw = Ok NoPartitions) ∧
  (is_sentinel (drop (Z.to_nat 0x8000) raw) → main raw = Ok NoPartitions).
Proof.
  split.
  - unfold len. intros Hlen. unfold main.
    assert (slice raw 0x8000 (0x8000 + 0xC00) = []) as ->; [|done].
    rewrite slice_pos by lia. rewrite drop_ge by lia. by rewrite take_nil.
  - intros Hs. unfold main.
    rewrite decode_sentinel_first; [done|].
    unfold is_sentinel in *. rewrite stride_0.
    rewrite slice_pos by lia. rewrite !take_take.
    replace (Z.to_nat (0x8000 + 0xC00) - Z.to_nat 0x8000)%nat with 3072%nat by lia.
    exact Hs.
Qed.

Lemma main_no_partitions_witness :
  main (replicate 100 1) = Ok NoPartitions ∧
  main (replicate (Z.to_nat 0x8000) 0 ++ [0xFF; 0xFF; 0xAA; 0x50])
  = Ok NoPartitions.
Proof.
  split.
  - apply (proj1 (main_no_partitions _)).
    unfold len. rewrite length_replicate. lia.
  - apply (proj2 (main_no_partitions _)).
    rewrite drop_app_length' by (by rewrite length_replicate). reflexivity.
Defined.

Lemma format_not_name (n : Z) (name : string) :
  String.length name ≠ 4%nat → format_0x02X n ≠ name.
Proof. intros Hl <-. by apply Hl. Qed.

Ltac lookup_cases :=
  repeat first [rewrite lookup_insert | rewrite lookup_singleton
               | rewrite lookup_empty];
  repeat case_decide; subst; cbn [default id].

Lemma subtype_str_factory typ sub :
  subtype_str typ sub = "factory"%string ↔ typ = 0 ∧ sub = 0.
Proof.
  unfold subtype_str, subtype_names. split.
  - lookup_cases; lookup_cases; intros Hf; try done;
      try (by apply format_not_name in Hf).
  - intros [-> ->]. reflexivity.
Qed.

Lemma type_str_app typ : type_str typ = "app"%string ↔ typ = 0.
Proof.
  unfold type_str, type_names. split.
  - lookup_cases; intros Hf; try done; by apply format_not_name in Hf.
  - intros ->. reflexivity.
Qed.

(** X5: The extractor's predicate [e["subtype"] == "factory"] holds for a
    decoded record exactly when the record's type byte and subtype byte
    are both 0; no other pair of bytes, named or shown in hex, gives that
    subtype string. *)
Theorem factory_iff_zero_bytes slot e :
  parse_slot slot = Ok (Append e) →
  (subtype e = "factory"%string ↔
   slot !! 2%nat = Some 0 ∧ slot !! 3%nat = Some 0) ∧
  (type e = "app"%string ↔ slot !! 2%nat = Some 0).
Proof.
  intros Hp. apply parse_slot_fields in Hp as (typ & sub & Ht & Hs & _ & ->).
  cbn [subtype type]. rewrite subtype_str_factory, type_str_app, Ht, Hs.
  split; split; intros; simplify_eq; naive_solver.
Qed.

Lemma factory_iff_zero_bytes_witness :
  subtype record_whole = "factory"%string ↔
  stride (slice image_whole 0x8000 (0x8000 + 0xC00)) 0 !! 2%nat = Some 0 ∧
  stride (slice image_whole 0x8000 (0x8000 + 0xC00)) 0 !! 3%nat = Some 0.
Proof.
  apply (factory_iff_zero_bytes
           (stride (slice image_whole 0x8000 (0x8000 + 0xC00)) 0) record_whole).
  vm_compute. reflexivity.
Defined.

Lemma pack_le_length n v : length (pack_le n v) = n.
Proof. revert v. induction n; intros v; simpl; [done|]. by rewrite IHn. Qed.

Lemma le_value_pack n v : le_value (pack_le n v) = v mod 256 ^ Z.of_nat n.
Proof.
  revert v. induction n as [|n IH]; intros v.
  { simpl. by rewrite Z.mod_1_r. }
  cbn [pack_le]. unfold le_value in *. cbn [foldr]. rewrite IH.
  rewrite Nat2Z.inj_succ, Z.pow_succ_r by lia.
  rewrite Z.rem_mul_r; lia.
Qed.

Lemma split_first_pad (label : list Z) k :
  Forall (λ b, b ≠ 0) label → split_first 0 (label ++ replicate k 0) = label.
Proof.
  induction 1 as [|x label Hx _ IH]; simpl.
  - by destruct k.
  - rewrite bool_decide_eq_false_2 by done. by rewrite IH.
Qed.

Lemma filter_ascii_id (label : list Z) :
  Forall (λ b, b < 128) label → filter (λ x, x < 128) label = label.
Proof.
  induction 1 as [|x label Hx _ IH]; [done|].
  rewrite filter_cons_True by done. by rewrite IH.
Qed.

Lemma parse_slot_layout b0 b1 typ sub (o z lab f : list Z) :
  b0 + 256 * b1 = MAGIC →
  length o = 4%nat → length z = 4%nat → length lab = 16%nat → length f = 4%nat →
  parse_slot ([b0; b1; typ; sub] ++ o ++ z ++ lab ++ f)
  = Ok (Append {| label := decode_ascii_ignore (split_first 0 lab);
                  type := type_str typ; subtype := subtype_str typ sub;
                  offset := le_value o; size := le_value z;
                  flags := le_value f |}).
Proof.
  intros Hm Ho Hz Hl Hf.
  destruct o as [|o0 [|o1 [|o2 [|o3 [|]]]]]; try done.
  destruct z as [|z0 [|z1 [|z2 [|z3 [|]]]]]; try done.
  rewrite parse_slot_eq. cbn [app].
  rewrite bool_decide_eq_false_2.
  2:{ unfold is_sentinel, MAGIC in *. cbn [firstn]. intros [= -> ->]. done. }
  change (take 2 (b0 :: b1 :: ?l)) with [b0; b1].
  rewrite unpack_2, bind_Ok.
  rewrite bool_decide_eq_false_2 by (intros Hc; by apply Hc).
  rewrite (index_Some _ 2 typ), bind_Ok by done.
  rewrite (index_Some _ 3 sub), bind_Ok by done.
  cbn [firstn skipn]. rewrite take_0, drop_0.
  rewrite (take_app_length' lab f 16) by done.
  rewrite (drop_app_length' lab f 16) by done.
  rewrite (take_ge f 4) by lia.
  unfold unpack. rewrite !bool_decide_eq_true_2 by done.
  by rewrite !bind_Ok.
Qed.

(** X4: Round trip through the record layout: the 32 bytes that hold the
    magic, a type and a subtype byte, a little-endian offset, size and
    flags below 2^32 and an ASCII label without NUL of at most 16 bytes,
    padded with NUL, decode to exactly these fields; the label comes back
    without its padding. *)
Theorem record_roundtrip typ sub o z (lab : list Z) f :
  0 ≤ o < 2 ^ 32 → 0 ≤ z < 2 ^ 32 → 0 ≤ f < 2 ^ 32 →
  Forall (λ b, 0 < b < 128) lab → (length lab ≤ 16)%nat →
  length (record_bytes typ sub o z lab f) = 32%nat ∧
  parse_slot (record_bytes typ sub o z lab f)
  = Ok (Append {| label := str_of lab;
                  type := type_str typ; subtype := subtype_str typ sub;
                  offset := o; size := z; flags := f |}).
Proof.
  intros Ho Hz Hf Hlab Hlen. unfold record_bytes.
  assert (length (pad_label lab) = 16%nat) as Hpad.
  { unfold pad_label. rewrite length_app, length_replicate. lia. }
  split.
  { rewrite !length_app, !pack_le_length, Hpad. reflexivity. }
  change (pack_le 2 MAGIC ++ [typ; sub] ++ ?l)
    with ([MAGIC mod 256; MAGIC / 256 mod 256; typ; sub] ++ l).
  rewrite parse_slot_layout
    by first [exact Hpad | apply pack_le_length | reflexivity].
  rewrite !le_value_pack.
  change (256 ^ Z.of_nat 4) with (2 ^ 32).
  rewrite !Z.mod_small by lia.
  unfold pad_label. rewrite split_first_pad.
  2:{ eapply Forall_impl; [exact Hlab|]. simpl. lia. }
  unfold decode_ascii_ignore. rewrite filter_ascii_id; [done|].
  eapply Forall_impl; [exact Hlab|]. simpl. lia.
Qed.

Lemma record_roundtrip_witness :
  parse_slot (record_bytes 0 0 0x10000 0x100000 (encode_ascii "factory") 0)
  = Ok (Append {| label := "factory"; type := "app"; subtype := "factory";
                  offset := 0x10000; size := 0x100000; flags := 0 |}).
Proof.
  apply (record_roundtrip 0 0 0x10000 0x100000 (encode_ascii "factory") 0);
    try lia.
  - apply (bool_decide_unpack _). vm_compute. exact I.
  - vm_compute. lia.
Defined.

End decoder_more.

(** ** More on the command-sequence heuristic and its report *)

Section sequences_more.
Import Py Sequences Report.
Implicit Types (data : list Z) (nearby : gset Z).

Lemma omap_length_filter {A B} (g : A → option B) (P : A → Prop)
    `{!∀ x, Decision (P x)} (l : list A) :
  (∀ x, is_Some (g x) → P x) →
  (length (omap g l) ≤ length (filter P l))%nat.
Proof.
  intros Hg. induction l as [|x l IH]; [done|].
  cbn [omap list_omap]. rewrite filter_cons.
  destruct (g x) as [y|] eqn:Hx.
  - rewrite decide_True by (apply Hg; by rewrite Hx). simpl. lia.
  - destruct (decide (P x)); simpl; lia.
Qed.

(** X8: The heuristic only filters: the number of candidate sites of an
    opcode never exceeds [data.count(bytes([opcode]))], the raw count
    that [analyze_tft_config.py] reports for it. *)
Theorem sequences_bounded_by_count data cmd name nearby :
  (length (find_command_sequences data cmd name nearby) ≤ count data [cmd])%nat.
Proof.
  rewrite count_single. unfold find_command_sequences, Analyze.positions_holding.
  apply omap_length_filter. intros i [s Hs].
  by apply visit_Some in Hs as [[Hi _] _].
Qed.

(** X9: Enlarging the reference opcode set never loses a candidate, and the
    [name] argument has no influence on the result. *)
Theorem sequences_monotone data cmd name name' nearby nearby' s :
  nearby ⊆ nearby' →
  s ∈ find_command_sequences data cmd name nearby →
  s ∈ find_command_sequences data cmd name' nearby'.
Proof.
  intros Hsub. rewrite !elem_of_find_command_sequences.
  intros (i & [Hi (b & Hb & Hor)] & ->). exists i. split; [|done].
  split; [done|]. exists b. split; [done|].
  destruct Hor as [Hin|Hlt]; [left; by apply Hsub|by right].
Qed.

Lemma sequences_monotone_witness :
  Site 0 [] [0x29] ∈ find_command_sequences [0x11; 0x29] 0x11 "b" nearby_cmds.
Proof.
  apply (sequences_monotone [0x11; 0x29] 0x11 "a" "b" {[0x29]} nearby_cmds).
  - apply (bool_decide_unpack _). vm_compute. exact I.
  - vm_compute. apply list_elem_of_here.
Defined.

Lemma sequences_sorted data cmd name nearby :
  StronglySorted Z.lt (offset <$> find_command_sequences data cmd name nearby).
Proof. apply offsets_sorted. Qed.

(** X11: What [find_init_sequences.main] displays: a block appears only for a
    key command with at least one candidate; it shows the first
    [min 5 n] of the [n] candidates, which are those of lowest offset,
    and announces [n - 5] more exactly when [n > 5]. *)
Theorem main_blocks_spec data blk :
  blk ∈ main_blocks data →
  let matches :=
    find_command_sequences data (cmd_byte blk) (description blk) nearby_cmds in
  (cmd_byte blk, description blk) ∈ key_commands ∧
  matches ≠ [] ∧
  shown blk = take 5 matches ∧
  length (shown blk) = Nat.min 5 (length matches) ∧
  more blk = (if decide (5 < length matches)%nat
              then Some (length matches - 5)%nat else None) ∧
  (∀ s s', s ∈ shown blk → s' ∈ drop 5 matches → offset s < offset s').
Proof.
  unfold main_blocks. rewrite list_elem_of_omap.
  intros ([cmd desc] & Hin & Hblk). unfold block_of in Hblk.
  cbv zeta in Hblk.
  destruct (find_command_sequences data cmd desc nearby_cmds) as [|m ms] eqn:Hm;
    [done|].
  injection Hblk as <-. cbn [cmd_byte description shown more]. rewrite Hm.
  change 5 with (Z.of_nat 5) at 1 2 3. rewrite !slice_to_nat.
  split; [done|]. split; [done|]. split; [done|].
  split; [by rewrite length_take|]. split.
  - cbn [length].
    destruct (Nat.ltb_spec 5 (S (length ms)));
      [rewrite decide_True by lia|rewrite decide_False by lia];
      [f_equal; lia|done].
  - intros s s' Hs Hs'.
    pose proof (sequences_sorted data cmd desc nearby_cmds) as Hsorted.
    rewrite Hm, <-(take_drop 5 (m :: ms)), fmap_app in Hsorted.
    eapply StronglySorted_app_1_elem_of; [exact Hsorted| |];
      by apply list_elem_of_fmap_2.
Qed.

Lemma main_blocks_spec_witness :
  shown (Block 0x29 "Display On (usually last command)"
               [Site 0 [] [0x11]] None) = [Site 0 [] [0x11]].
Proof.
  apply (main_blocks_spec [0x29; 0x11]
           (Block 0x29 "Display On (usually last command)"
                  [Site 0 [] [0x11]] None)).
  vm_compute. apply list_elem_of_here.
Defined.

(** X10: The two windows of a site are adjacent to the occurrence: the bytes
    before, the opcode and the bytes after are one contiguous piece of
    the buffer, starting [min 10 i] bytes before the offset [i]. *)
Theorem site_windows_contiguous data cmd name nearby s :
  s ∈ find_command_sequences data cmd name nearby →
  (length (before s) = Nat.min 10 (Z.to_nat (offset s))) ∧
  before s ++ cmd :: after s
  = take (length (before s) + 16)
         (drop (Z.to_nat (offset s) - length (before s)) data).
Proof.
  rewrite elem_of_find_command_sequences.
  intros (i & [Hi _] & ->). unfold site_at. cbn [before after offset].
  rewrite Nat2Z.id.
  pose proof (lookup_lt_Some _ _ _ Hi) as Hlt.
  assert (length (take (i - (i - 10)) (drop (i - 10) data)) = Nat.min 10 i)
    as Hlen by (rewrite length_take, length_drop; lia).
  rewrite Hlen. split; [done|].
  replace (i - Nat.min 10 i)%nat with (i - 10)%nat by lia.
  replace (i - (i - 10))%nat with (Nat.min 10 i) by lia.
  rewrite <-(take_drop (Nat.min 10 i) (drop (i - 10) data)) at 2.
  rewrite take_app_add'
    by (rewrite length_take, length_drop; lia).
  f_equal. rewrite drop_drop.
  replace (i - 10 + Nat.min 10 i)%nat with i by lia.
  by rewrite (drop_S data cmd i Hi).
Qed.

Lemma site_windows_contiguous_witness :
  [1; 2] ++ 0x11 :: [5; 6] = take (2 + 16) (drop (2 - 2) [1; 2; 0x11; 5; 6]).
Proof.
  apply (site_windows_contiguous [1; 2; 0x11; 5; 6] 0x11 "a" nearby_cmds
           (Site 2 [1; 2] [5; 6])).
  vm_compute. apply list_elem_of_here.
Defined.

End sequences_more.

(** ** More on the driver and opcode scanners *)

Section counts_more.
Import Py Analyze.
Implicit Types (data : list Z) (d : string).

Lemma lower_byte_idemp b : lower_byte (lower_byte b) = lower_byte b.
Proof.
  unfold lower_byte.
  destruct ((0x41 <=? b) && (b <=? 0x5A)) eqn:Hb; [|by rewrite Hb].
  destruct ((0x41 <=? b + 32) && (b + 32 <=? 0x5A)) eqn:Hb'; [|done].
  apply andb_true_iff in Hb as [?%Z.leb_le ?%Z.leb_le].
  apply andb_true_iff in Hb' as [?%Z.leb_le ?%Z.leb_le]. lia.
Qed.

Lemma lower_idemp (l : list Z) : lower (lower l) = lower l.
Proof.
  unfold lower. rewrite <-list_fmap_compose. apply list_fmap_ext.
  intros _ b _. apply lower_byte_idemp.
Qed.

Lemma occurs_at_lower p data i :
  occurs_at lower_byte p (lower data) i ↔ occurs_at lower_byte p data i.
Proof.
  unfold occurs_at, lower.
  rewrite <-fmap_drop, <-fmap_take.
  change (lower_byte <$> (lower_byte <$> ?l)) with (lower (lower l)).
  by rewrite lower_idemp.
Qed.

Lemma ci_occurrences_lower d data :
  ci_occurrences d (lower data) = ci_occurrences d data.
Proof.
  unfold ci_occurrences, occurrence_count, lower. rewrite length_fmap.
  f_equal. apply list_filter_iff. intros i. apply occurs_at_lower.
Qed.

(** X12: The driver search does not depend on the letter case of the buffer:
    lower-casing the buffer leaves every count unchanged. *)
Theorem search_drivers_case_insensitive data :
  search_drivers (lower data) = search_drivers data.
Proof.
  apply map_eq. intros d. rewrite !search_drivers_lookup.
  by rewrite ci_occurrences_lower.
Qed.

Lemma filter_none {A} (P : A → Prop) `{!∀ x, Decision (P x)} (l : list A) :
  (∀ x, x ∈ l → ¬ P x) → filter P l = [].
Proof.
  intros Hno. induction l as [|x l IH]; [done|].
  rewrite filter_cons_False by (apply Hno; left).
  apply IH. intros y Hy. apply Hno. by right.
Qed.

Lemma occurs_at_length f p data i :
  (0 < length p)%nat → occurs_at f p data i → (i + length p ≤ length data)%nat.
Proof.
  unfold occurs_at. intros Hp Ho. apply (f_equal length) in Ho.
  rewrite !length_fmap, length_take, length_drop in Ho. lia.
Qed.

Lemma drivers_min_length :
  Forall (λ d, (6 ≤ length (encode_ascii d))%nat) drivers.
Proof. apply (bool_decide_unpack _). vm_compute. exact I. Qed.

(** X13: A signature longer than the buffer is not reported; in particular a
    buffer of fewer than 6 bytes (the empty buffer included) yields the
    empty dict. *)
Theorem search_drivers_short_buffer data :
  (∀ d, (length data < length (encode_ascii d))%nat →
        search_drivers data !! d = None) ∧
  ((length data < 6)%nat → search_drivers data = ∅).
Proof.
  assert (∀ d, (length data < length (encode_ascii d))%nat →
               search_drivers data !! d = None) as Hshort.
  { intros d Hlen. rewrite search_drivers_lookup.
    destruct (decide (d ∈ drivers)); [|done].
    rewrite decide_True; [done|].
    unfold ci_occurrences, occurrence_count.
    rewrite filter_none; [done|].
    intros i _ Ho%occurs_at_length; lia. }
  split; [exact Hshort|].
  intros Hlen. apply map_eq. intros d. rewrite lookup_empty.
  destruct (decide (d ∈ drivers)) as [Hd|Hd].
  - apply Hshort. pose proof drivers_min_length as Hmin.
    rewrite Forall_forall in Hmin. specialize (Hmin d Hd). lia.
  - rewrite search_drivers_lookup. by rewrite decide_False.
Qed.

Lemma search_drivers_short_buffer_witness :
  search_drivers (encode_ascii "ILI93") = ∅.
Proof.
  apply (proj2 (search_drivers_short_buffer (encode_ascii "ILI93"))).
  vm_compute. lia.
Defined.

Lemma positions_holding_cons c x data :
  positions_holding c (x :: data)
  = ((if decide (x = c) then 1 else 0) + positions_holding c data)%nat.
Proof.
  unfold positions_holding.
  change (length (x :: data)) with (S (length data)).
  rewrite filter_seq_S. cbn [lookup list_lookup].
  destruct (decide (Some x = Some c)), (decide (x = c));
    simplify_eq; done.
Qed.

Lemma indicator_sum (cs : list Z) x :
  NoDup cs →
  (sum_list ((λ c, if decide (x = c) then 1 else 0)%nat <$> cs) ≤ 1)%nat.
Proof.
  induction 1 as [|c cs Hc _ IH]; csimpl; [lia|].
  destruct (decide (x = c)) as [->|]; [|lia].
  assert (sum_list ((λ c', if decide (c = c') then 1 else 0)%nat <$> cs) = 0%nat)
    as ->; [|lia].
  clear IH. induction cs as [|c' cs IH]; [done|]. csimpl.
  rewrite decide_False by (intros ->; apply Hc; left).
  rewrite IH; [done|]. intros Hin. apply Hc. by right.
Qed.

Lemma positions_sum (cs : list Z) data :
  NoDup cs →
  (sum_list ((λ c, positions_holding c data) <$> cs) ≤ length data)%nat.
Proof.
  intros Hnd. induction data as [|x data IH]; cbn [length].
  { clear. induction cs as [|c cs IH]; csimpl; [done|].
    change (positions_holding c []) with 0%nat. lia. }
  pose proof (indicator_sum cs x Hnd) as Hind.
  assert (sum_list ((λ c, positions_holding c (x :: data)) <$> cs)
          = (sum_list ((λ c, if decide (x = c) then 1 else 0)%nat <$> cs)
             + sum_list ((λ c, positions_holding c data) <$> cs))%nat) as ->;
    [|lia].
  clear. induction cs as [|c cs IH]; csimpl; [done|].
  rewrite positions_holding_cons, IH. lia.
Qed.

Lemma search_init_commands_in_counts table data :
  (sum_list ((λ r, r.2) <$> search_init_commands_in table data)
   = sum_list ((λ c, positions_holding c data) <$> table.*1))%nat.
Proof.
  unfold search_init_commands_in.
  induction table as [|[c nm] table IH]; [done|].
  cbn [omap list_omap]. csimpl. rewrite count_single.
  destruct (Nat.ltb_spec 0 (positions_holding c data)); csimpl; rewrite IH; lia.
Qed.

Lemma search_init_commands_in_sorted table data :
  StronglySorted Z.lt table.*1 →
  StronglySorted Z.lt ((λ r, r.1.1) <$> search_init_commands_in table data).
Proof.
  unfold search_init_commands_in.
  induction table as [|[c nm] table IH]; csimpl; [constructor|].
  intros Hs. apply StronglySorted_inv in Hs as [Hs Hall].
  specialize (IH Hs).
  destruct (0 <? count data [c])%nat; csimpl; [|done].
  constructor; [done|].
  rewrite Forall_forall in Hall |- *. intros c' Hc'.
  apply list_elem_of_fmap in Hc' as ([[c'' nm''] n''] & -> & Hin).
  apply list_elem_of_omap in Hin as ([c3 nm3] & Hin3 & Hsome).
  destruct (0 <? count data [c3])%nat; simplify_eq. simpl.
  apply Hall. apply list_elem_of_fmap. by exists (c'', nm'').
Qed.

(** X14: The opcode report lists the opcodes it found in strictly ascending
    order (so [sorted(commands)] in [main] changes nothing), every count
    is positive, and the counts together never exceed the buffer
    length. *)
Theorem search_init_commands_shape data :
  StronglySorted Z.lt ((λ r, r.1.1) <$> search_init_commands data) ∧
  Forall (λ r, (0 < r.2)%nat) (search_init_commands data) ∧
  (sum_list ((λ r, r.2) <$> search_init_commands data) ≤ length data)%nat.
Proof.
  unfold search_init_commands. split; [|split].
  - apply search_init_commands_in_sorted. unfold ili_commands. csimpl.
    repeat (constructor; [|repeat (constructor; [lia|]); constructor]).
    constructor.
  - apply Forall_forall. intros [[c nm] n] Hin.
    by apply elem_of_search_init_commands_in in Hin as (_ & _ & ?).
  - rewrite search_init_commands_in_counts. apply positions_sum.
    apply (bool_decide_unpack _). vm_compute. exact I.
Qed.

End counts_more.

(** ** More on the keyword string scanner *)

Section strings_more.
Import Py Analyze.
Implicit Types (data r : list Z) (keywords : list (list Z)).

Lemma ascii_compare_spec (x y : ascii) :
  CompareSpec (x = y) (N_of_ascii x < N_of_ascii y)%N
              (N_of_ascii y < N_of_ascii x)%N (Ascii.compare x y).
Proof.
  unfold Ascii.compare.
  destruct (N.compare_spec (N_of_ascii x) (N_of_ascii y)) as [Heq| |];
    constructor; try done.
  by rewrite <-(ascii_N_embedding x), <-(ascii_N_embedding y), Heq.
Qed.

Lemma string_leb_trans (a b c : string) :
  String.leb a b = true → String.leb b c = true → String.leb a c = true.
Proof.
  unfold String.leb. revert b c.
  induction a as [|x a IH]; intros [|y b] [|z c]; simpl; try done.
  destruct (ascii_compare_spec x y) as [->|Hxy|Hxy]; simpl; [| |done].
  - destruct (ascii_compare_spec y z) as [->|Hyz|Hyz]; simpl;
      [apply IH|done|done].
  - destruct (ascii_compare_spec y z) as [->|Hyz|Hyz]; simpl; [| |done];
      intros _ _.
    + destruct (ascii_compare_spec x z) as [->|?|?]; simpl; [lia|done|lia].
    + destruct (ascii_compare_spec x z) as [->|?|?]; simpl; [lia|done|lia].
Qed.

#[local] Instance str_le_trans : Transitive str_le.
Proof. intros a b c. apply string_leb_trans. Qed.

#[local] Instance str_le_total : Total str_le.
Proof. intros a b. apply String.leb_total. Qed.

#[local] Instance str_le_antisym : AntiSymm (=) str_le.
Proof. intros a b. apply String.leb_antisym. Qed.

(** X15: The strings are returned in ascending lexicographic order (by
    character code), each strictly below the next. *)
Theorem search_strings_sorted data keywords :
  StronglySorted (λ a b, str_le a b ∧ a ≠ b) (search_strings data keywords).
Proof.
  pose proof (StronglySorted_merge_sort str_le
    (elements (list_to_set
       (omap (λ s, if relevant_run keywords s then decode_ascii s else None)
             (findall data)) : gset string))) as Hs.
  pose proof (NoDup_sorted_set
    (omap (λ s, if relevant_run keywords s then decode_ascii s else None)
          (findall data))) as Hnd.
  unfold search_strings. unfold sorted_set in *.
  induction Hs as [|a l Hl IH Hall]; [constructor|].
  apply NoDup_cons in Hnd as [Ha Hnd].
  constructor; [by apply IH|].
  rewrite Forall_forall in Hall |- *. intros b Hb.
  split; [by apply Hall|]. intros ->. done.
Qed.

Lemma elem_of_search_strings data keywords s :
  s ∈ search_strings data keywords ↔
  ∃ r, maximal_run data r ∧ (4 ≤ length r)%nat ∧
       (∃ kw, kw ∈ keywords ∧ ci_substring kw r) ∧ s = str_of r.
Proof.
  unfold search_strings.
  rewrite elem_of_sorted_set, list_elem_of_omap. split.
  - intros (r & Hr & Hs). apply elem_of_findall in Hr as [Hmax Hlen].
    exists r. destruct (relevant_run keywords r) eqn:Hrel; [|done].
    apply relevant_run_spec in Hrel.
    assert (Forall (λ b, printable b = true) r) as Hp
      by (by destruct Hmax as (? & ? & _ & ? & _)).
    rewrite decode_ascii_printable in Hs by done. by simplify_eq.
  - intros (r & Hmax & Hlen & Hkw & ->). exists r.
    split; [by apply elem_of_findall|].
    apply relevant_run_spec in Hkw as ->.
    apply decode_ascii_printable. by destruct Hmax as (? & ? & _ & ? & _).
Qed.

Lemma ord_chr b : 0 ≤ b < 256 → ord (chr b) = b.
Proof.
  intros Hb. unfold ord, chr. rewrite N_ascii_embedding by lia. lia.
Qed.

Lemma encode_str_of (l : list Z) : is_bytes l → encode_ascii (str_of l) = l.
Proof.
  unfold encode_ascii. induction 1 as [|b l Hb _ IH]; [done|].
  cbn [str_of String.list_ascii_of_string]. rewrite fmap_cons, IH.
  by rewrite ord_chr.
Qed.

Lemma printable_bytes r :
  Forall (λ b, printable b = true) r → is_bytes r.
Proof.
  intros Hp. eapply Forall_impl; [exact Hp|].
  intros b Hb. unfold printable, byte_ok in *.
  apply andb_true_iff in Hb as [?%Z.leb_le ?%Z.leb_le]. lia.
Qed.

(** X16: Every returned string is the text of a run of the buffer: encoded
    back to bytes it is a maximal printable run of the buffer, so it has
    at least 4 characters, all of them printable ASCII. *)
Theorem search_strings_texts data keywords s :
  s ∈ search_strings data keywords →
  maximal_run data (encode_ascii s) ∧
  (4 ≤ String.length s)%nat ∧
  Forall (λ b, 0x20 ≤ b ≤ 0x7E) (encode_ascii s).
Proof.
  intros Hs.
  apply elem_of_search_strings in Hs
    as (r & Hmax & Hlen & _ & ->).
  assert (Forall (λ b, printable b = true) r) as Hp
    by (by destruct Hmax as (? & ? & _ & ? & _)).
  rewrite encode_str_of by by apply printable_bytes.
  split; [done|]. split; [by rewrite str_of_length|].
  eapply Forall_impl; [exact Hp|]. intros b Hb. unfold printable in Hb.
  apply andb_true_iff in Hb as [?%Z.leb_le ?%Z.leb_le]. lia.
Qed.

Lemma search_strings_texts_witness :
  (4 ≤ String.length "lcd!")%nat.
Proof.
  apply (search_strings_texts
           (encode_ascii "lcd!" ++ [0]) [encode_ascii "LCD"] "lcd!").
  vm_compute. apply list_elem_of_here.
Defined.

(** X17: Nothing is returned for an empty keyword list, nor for a buffer of
    fewer than 4 bytes. *)
Theorem search_strings_empty data keywords :
  search_strings data [] = [] ∧
  ((length data < 4)%nat → search_strings data keywords = []).
Proof.
  split.
  - apply elem_of_nil_inv. intros s Hs.
    apply elem_of_search_strings in Hs
      as (r & _ & _ & (kw & Hkw & _) & _).
    by apply elem_of_nil in Hkw.
  - intros Hlen. apply elem_of_nil_inv. intros s Hs.
    apply elem_of_search_strings in Hs
      as (r & (pre & post & -> & _) & Hr & _).
    rewrite !length_app in Hlen. lia.
Qed.

Lemma search_strings_empty_witness :
  search_strings (encode_ascii "TFT") [encode_ascii "TFT"] = [].
Proof.
  apply (proj2 (search_strings_empty (encode_ascii "TFT") [encode_ascii "TFT"])).
  vm_compute. lia.
Defined.

Lemma relevant_run_lower keywords r :
  relevant_run (lower <$> keywords) r = relevant_run keywords r.
Proof.
  unfold relevant_run, any. induction keywords as [|kw kws IH]; [done|].
  rewrite fmap_cons. cbn [existsb]. by rewrite lower_idemp, IH.
Qed.

(** X18: Keywords are matched without regard to their own letter case:
    lower-casing the keyword list gives the same result. *)
Theorem search_strings_keyword_case data keywords :
  search_strings data (lower <$> keywords) = search_strings data keywords.
Proof.
  unfold search_strings. cbv zeta. apply (f_equal sorted_set).
  apply list_omap_ext, Forall2_same_length_lookup. split; [done|].
  intros i x y Hx Hy. simplify_eq. by rewrite relevant_run_lower.
Qed.

End strings_more.
